(** * SWCaffe slave kernel [sw_slave_sscal] : scale a vector by a scalar

    Shallow embedding of [src/caffe/swutil/slave/sw_slave_sscal.c] and the
    properties of its partitioner, its DMA pipeline and its compute loops.

    - C [int] values are [Z] with the 32-bit two's-complement wrap-around
      written out at every arithmetic operation;
    - the element type and its multiply are parameters of the kernel; C
      float is instantiated by IEEE binary32 ([SpecFloat]);
    - global memory is one address space [Z -> elem], addressed in elements,
      in which [para->src] and [para->dst] are base addresses (so that the
      two vectors may alias);
    - the LDM staging buffers are lists with checked indexing;
    - the kernel runs in a state-and-fault monad that also logs every LDM
      allocation and every DMA transfer; loops carry an iteration budget;
    - the population of SPNUM workers is run one worker after the other,
      in an arbitrary order: workers share nothing but global memory. *)

From Stdlib Require Import ZArith Lia List Bool.
From Stdlib Require Import Floats.SpecFloat.
From stdpp Require Import base list.

Open Scope Z_scope.

(** ** C [int] arithmetic *)

Definition INT_MIN : Z := - 2 ^ 31.
Definition INT_MAX : Z := 2 ^ 31 - 1.

Definition wrap (z : Z) : Z := (z + 2 ^ 31) mod 2 ^ 32 - 2 ^ 31.

Definition iadd (a b : Z) : Z := wrap (a + b).
Definition isub (a b : Z) : Z := wrap (a - b).
Definition imul (a b : Z) : Z := wrap (a * b).
(* C division truncates toward zero *)
Definition idiv (a b : Z) : Z := wrap (Z.quot a b).
Definition irem (a b : Z) : Z := wrap (Z.rem a b).
(* a relational operator yields the int 1 or 0 *)
Definition ilt (a b : Z) : Z := if a <? b then 1 else 0.

(** ** Constants of the translation unit *)

Definition SIMDSIZE : Z := 4.
Definition SPNUM : Z := 64.
(* #define BUFFSIZE 4*1024, the value in force in sw_slave_sscal_f;
   every use site is of the form  e + BUFFSIZE - 1,  e += BUFFSIZE,
   i < BUFFSIZE  or  BUFFSIZE * sizeof(float), where the unparenthesised
   macro body means the same as its value *)
Definition BUFFSIZE : Z := imul 4 1024.
Definition sizeof_float : Z := 4.

(** ** The partitioner (lines 100-103 of the source) *)

(* int local_count = count/SPNUM + (id<(count%SPNUM)); *)
Definition local_count_of (id count : Z) : Z :=
  iadd (idiv count SPNUM) (ilt id (irem count SPNUM)).

(* int start = id*(count/SPNUM) + (id<(count%SPNUM)?id:(count%SPNUM)); *)
Definition start_of (id count : Z) : Z :=
  iadd (imul id (idiv count SPNUM))
       (if id <? irem count SPNUM then id else irem count SPNUM).

(* membership of a global element index in the range of worker [id] *)
Definition in_range (id count i : Z) : Prop :=
  start_of id count <= i < start_of id count + local_count_of id count.

(** The partition contract in the words of the specification, for an
    arbitrary worker population [P] (mathematical floor division). *)
Definition spec_local_count (P N id : Z) : Z :=
  N / P + (if id <? N mod P then 1 else 0).

Definition spec_start_offset (P N id : Z) : Z :=
  id * (N / P) + Z.min id (N mod P).

(** ** The worker's machine: faults, DMA descriptors, state, event log *)

Inductive fault : Type :=
| OutOfBounds   (* an LDM access outside an allocated staging buffer *)
| BadTransfer   (* a DMA issued with a negative or ragged byte count *)
| Stalled       (* dma_wait on a reply word that will never reach the count *)
| OutOfFuel.    (* the iteration budget of the embedding was exhausted *)

Inductive result (A : Type) : Type :=
| Ok (a : A)
| Fault (f : fault).
Arguments Ok {A} a.
Arguments Fault {A} f.

Inductive dma_op : Type := DMA_PUT | DMA_GET.
Inductive dma_mode : Type := PE_MODE | BCAST_MODE | ROW_MODE | BROW_MODE | RANK_MODE.

(* volatile int replyget, replyput: the two completion words *)
Inductive reply_var : Type := Replyget | Replyput.

(* float *local_src, *local_dst: the two LDM staging buffers *)
Inductive ldm_buf : Type := Local_src | Local_dst.

(* __thread_local_fix dma_desc dma_get_sscal_src, dma_put_sscal_dst *)
Inductive desc_var : Type := Dma_get_sscal_src | Dma_put_sscal_dst.

Record dma_desc : Type := mk_desc {
  d_op : dma_op;
  d_mode : dma_mode;
  d_reply : reply_var;
  d_size : Z            (* bytes *)
}.

Inductive event : Type :=
| EvMalloc (bytes : Z)
| EvFree (bytes : Z)
| EvGet (mem_addr n : Z)    (* in-transfer of global elements [mem_addr, mem_addr+n) *)
| EvPut (mem_addr n : Z).   (* out-transfer to global elements [mem_addr, mem_addr+n) *)

Section Kernel.

Context {elem : Type}.
(* the native multiply of the element type *)
Variable fmul : elem -> elem -> elem.
(* the unspecified contents of freshly allocated LDM *)
Variable uninit : ldm_buf -> nat -> elem.

(* typedef struct sscalPara_st { void *src; void *dst; TypeVal alpha; int count; };
   [alpha] is the view para->alpha.f of the union; [src] and [dst] are
   addresses of global memory counted in elements *)
Record sscalPara : Type := mk_para {
  src : Z;
  dst : Z;
  alpha : elem;
  count : Z
}.

Record state : Type := mk_state {
  gmem : Z -> elem;
  local_src : list elem;
  local_dst : list elem;
  dma_get_sscal_src : dma_desc;
  dma_put_sscal_dst : dma_desc;
  replyget : Z;
  replyput : Z;
  trace : list event
}.

Definition M (A : Type) : Type := state -> result (A * state).

Definition ret {A} (a : A) : M A := fun s => Ok (a, s).

Definition bind {A B} (m : M A) (k : A -> M B) : M B :=
  fun s => match m s with
           | Ok (a, s') => k a s'
           | Fault f => Fault f
           end.

Definition fail {A} (f : fault) : M A := fun _ => Fault f.

Notation "x <- m ;; k" := (bind m (fun x => k))
  (at level 100, m at next level, right associativity).
Notation "m ;; k" := (bind m (fun _ => k))
  (at level 100, right associativity).

(** *** State accessors *)

Definition buf (b : ldm_buf) (s : state) : list elem :=
  match b with Local_src => local_src s | Local_dst => local_dst s end.

Definition set_buf (b : ldm_buf) (l : list elem) (s : state) : state :=
  match b with
  | Local_src => mk_state (gmem s) l (local_dst s) (dma_get_sscal_src s)
                          (dma_put_sscal_dst s) (replyget s) (replyput s) (trace s)
  | Local_dst => mk_state (gmem s) (local_src s) l (dma_get_sscal_src s)
                          (dma_put_sscal_dst s) (replyget s) (replyput s) (trace s)
  end.

Definition desc (v : desc_var) (s : state) : dma_desc :=
  match v with
  | Dma_get_sscal_src => dma_get_sscal_src s
  | Dma_put_sscal_dst => dma_put_sscal_dst s
  end.

Definition set_desc (v : desc_var) (d : dma_desc) (s : state) : state :=
  match v with
  | Dma_get_sscal_src => mk_state (gmem s) (local_src s) (local_dst s) d
                           (dma_put_sscal_dst s) (replyget s) (replyput s) (trace s)
  | Dma_put_sscal_dst => mk_state (gmem s) (local_src s) (local_dst s)
                           (dma_get_sscal_src s) d (replyget s) (replyput s) (trace s)
  end.

Definition reply (r : reply_var) (s : state) : Z :=
  match r with Replyget => replyget s | Replyput => replyput s end.

Definition set_reply (r : reply_var) (v : Z) (s : state) : state :=
  match r with
  | Replyget => mk_state (gmem s) (local_src s) (local_dst s) (dma_get_sscal_src s)
                         (dma_put_sscal_dst s) v (replyput s) (trace s)
  | Replyput => mk_state (gmem s) (local_src s) (local_dst s) (dma_get_sscal_src s)
                         (dma_put_sscal_dst s) (replyget s) v (trace s)
  end.

Definition set_gmem (g : Z -> elem) (s : state) : state :=
  mk_state g (local_src s) (local_dst s) (dma_get_sscal_src s)
           (dma_put_sscal_dst s) (replyget s) (replyput s) (trace s).

Definition log (e : event) (s : state) : state :=
  mk_state (gmem s) (local_src s) (local_dst s) (dma_get_sscal_src s)
           (dma_put_sscal_dst s) (replyget s) (replyput s) (trace s ++ [e]).

(** *** The runtime's primitives *)

(** Modelled from the spec: the fast-local-memory allocator of <slave.h>
    (acquire(size) -> buffer / release(buffer, size)).  A fresh buffer
    holds [bytes / sizeof(float)] elements of unspecified contents; a
    released buffer can no longer be indexed. *)
Definition ldm_malloc (b : ldm_buf) (bytes : Z) : M unit := fun s =>
  Ok (tt, log (EvMalloc bytes)
            (set_buf b (map (uninit b) (seq 0 (Z.to_nat (bytes / sizeof_float)))) s)).

Definition ldm_free (b : ldm_buf) (bytes : Z) : M unit := fun s =>
  Ok (tt, log (EvFree bytes) (set_buf b [] s)).

(** Modelled from the spec: the descriptor configuration calls of <dma.h>
    (configure(descriptor, direction, synchronization-mode,
    completion-signal), configure(descriptor, size)). *)
Definition dma_set_op (v : desc_var) (o : dma_op) : M unit := fun s =>
  let d := desc v s in
  Ok (tt, set_desc v (mk_desc o (d_mode d) (d_reply d) (d_size d)) s).

Definition dma_set_mode (v : desc_var) (m : dma_mode) : M unit := fun s =>
  let d := desc v s in
  Ok (tt, set_desc v (mk_desc (d_op d) m (d_reply d) (d_size d)) s).

Definition dma_set_reply (v : desc_var) (r : reply_var) : M unit := fun s =>
  let d := desc v s in
  Ok (tt, set_desc v (mk_desc (d_op d) (d_mode d) r (d_size d)) s).

Definition dma_set_size (v : desc_var) (bytes : Z) : M unit := fun s =>
  let d := desc v s in
  Ok (tt, set_desc v (mk_desc (d_op d) (d_mode d) (d_reply d) bytes) s).

(* checked read of one element of a staging buffer *)
Definition ldm_load (b : ldm_buf) (i : Z) : M elem := fun s =>
  if 0 <=? i then
    match buf b s !! Z.to_nat i with
    | Some v => Ok (v, s)
    | None => Fault OutOfBounds
    end
  else Fault OutOfBounds.

(* checked write of one element of a staging buffer *)
Definition ldm_store (b : ldm_buf) (i : Z) (v : elem) : M unit := fun s =>
  if (0 <=? i) && (i <? Z.of_nat (length (buf b s))) then
    Ok (tt, set_buf b (<[Z.to_nat i := v]> (buf b s)) s)
  else Fault OutOfBounds.

(* the [n] global elements starting at address [mem] *)
Definition gather (g : Z -> elem) (mem : Z) (n : nat) : list elem :=
  map (fun k => g (mem + Z.of_nat k)) (seq 0 n).

(* global memory after the elements [mem, mem+n) were overwritten by the
   front of the list [l] *)
Definition scatter (g : Z -> elem) (mem n : Z) (l : list elem) : Z -> elem :=
  fun a =>
    if (mem <=? a) && (a <? mem + n) then
      match l !! Z.to_nat (a - mem) with
      | Some v => v
      | None => g a
      end
    else g a.

(** Modelled from the spec: the bulk-transfer call issue(descriptor,
    global_address, local_address) of <dma.h>.  The descriptor is passed
    by value.  A get copies [d_size / sizeof(float)] global elements
    starting at [mem] to the front of the staging buffer; a put copies
    that many elements from the front of the staging buffer to global
    memory starting at [mem].  Completion adds one to the reply word the
    descriptor is bound to. *)
Definition dma (d : dma_desc) (mem : Z) (b : ldm_buf) : M unit := fun s =>
  let n := d_size d / sizeof_float in
  if (0 <=? d_size d) && (d_size d mod sizeof_float =? 0) then
    if n <=? Z.of_nat (length (buf b s)) then
      let s1 :=
        match d_op d with
        | DMA_GET =>
            log (EvGet mem n)
              (set_buf b (gather (gmem s) mem (Z.to_nat n)
                          ++ drop (Z.to_nat n) (buf b s)) s)
        | DMA_PUT =>
            log (EvPut mem n) (set_gmem (scatter (gmem s) mem n (buf b s)) s)
        end in
      Ok (tt, set_reply (d_reply d) (reply (d_reply d) s1 + 1) s1)
    else Fault OutOfBounds
  else Fault BadTransfer.

(** Modelled from the spec: the blocking wait-for-N-completions primitive
    of <dma.h>.  Transfers complete when issued, so a wait on a reply word
    that does not hold the expected count would never return. *)
Definition dma_wait (r : reply_var) (n : Z) : M unit := fun s =>
  if reply r s =? n then Ok (tt, s) else Fault Stalled.

(* reply = v; *)
Definition assign_reply (r : reply_var) (v : Z) : M unit := fun s =>
  Ok (tt, set_reply r v s).

(** Modelled from the spec: the vector-arithmetic capability of <simd.h>
    for lane width 4: load 4 contiguous elements, lane-wise multiply,
    store 4 contiguous elements, broadcast of a scalar. *)
Record floatv4 : Type := V4 { lane0 : elem; lane1 : elem; lane2 : elem; lane3 : elem }.

Definition simd_load (b : ldm_buf) (i : Z) : M floatv4 :=
  a0 <- ldm_load b i ;;
  a1 <- ldm_load b (i + 1) ;;
  a2 <- ldm_load b (i + 2) ;;
  a3 <- ldm_load b (i + 3) ;;
  ret (V4 a0 a1 a2 a3).

Definition simd_store (v : floatv4) (b : ldm_buf) (i : Z) : M unit :=
  ldm_store b i (lane0 v) ;;
  ldm_store b (i + 1) (lane1 v) ;;
  ldm_store b (i + 2) (lane2 v) ;;
  ldm_store b (i + 3) (lane3 v).

Definition simd_mul (a b : floatv4) : floatv4 :=
  V4 (fmul (lane0 a) (lane0 b)) (fmul (lane1 a) (lane1 b))
     (fmul (lane2 a) (lane2 b)) (fmul (lane3 a) (lane3 b)).

(* SIMDTYPEF valpha = alpha; *)
Definition simd_splat (a : elem) : floatv4 := V4 a a a a.

(** *** Control *)

(* for (...; cond(i); i = step(i)) body(i);  yields the final value of i *)
Fixpoint for_loop (fuel : nat) (cond : Z -> bool) (step : Z -> Z)
         (body : Z -> M unit) (i : Z) : M Z :=
  match fuel with
  | O => fail OutOfFuel
  | S fuel' =>
      if cond i then body i ;; for_loop fuel' cond step body (step i)
      else ret i
  end.

(** ** The kernels *)

(* simd_load(vsrc,&local_src[i]); vsrc = vsrc * valpha; simd_store(vsrc,&local_dst[i]); *)
Definition simd_body (valpha : floatv4) (i : Z) : M unit :=
  vsrc <- simd_load Local_src i ;;
  simd_store (simd_mul vsrc valpha) Local_dst i.

(* local_dst[i] = local_src[i] * alpha; *)
Definition scalar_body (a : elem) (i : Z) : M unit :=
  x <- ldm_load Local_src i ;;
  ldm_store Local_dst i (fmul x a).

(* lines 124-139: one iteration of the full-chunk loop *)
Definition chunk_body (fuel : nat) (src_ptr dst_ptr : Z) (valpha : floatv4)
           (off : Z) : M unit :=
  (fun s => dma (dma_get_sscal_src s) (src_ptr + off) Local_src s) ;;
  dma_wait Replyget 1 ;; assign_reply Replyget 0 ;;
  for_loop fuel (fun i => i <? BUFFSIZE) (fun i => iadd i SIMDSIZE)
           (simd_body valpha) 0 ;;
  (fun s => dma (dma_put_sscal_dst s) (dst_ptr + off) Local_dst s) ;;
  dma_wait Replyput 1 ;; assign_reply Replyput 0.

(* lines 141-159: the body of  if(off<local_count)  *)
Definition tail_body (fuel : nat) (src_ptr dst_ptr : Z) (a : elem)
           (valpha : floatv4) (local_count off : Z) : M unit :=
  dma_set_size Dma_get_sscal_src (isub local_count off * sizeof_float) ;;
  (fun s => dma (dma_get_sscal_src s) (src_ptr + off) Local_src s) ;;
  dma_wait Replyget 1 ;; assign_reply Replyget 0 ;;
  i <- for_loop fuel (fun i => isub (iadd i SIMDSIZE) 1 <? isub local_count off)
                (fun i => iadd i SIMDSIZE) (simd_body valpha) 0 ;;
  for_loop fuel (fun i => i <? isub local_count off) (fun i => iadd i 1)
           (scalar_body a) i ;;
  dma_set_size Dma_put_sscal_dst (isub local_count off * sizeof_float) ;;
  (fun s => dma (dma_put_sscal_dst s) (dst_ptr + off) Local_dst s) ;;
  dma_wait Replyput 1 ;; assign_reply Replyput 0.

(* lines 124-139: the full-chunk loop, yielding the final [off] *)
Definition main_loop (fuel : nat) (src_ptr dst_ptr : Z) (valpha : floatv4)
           (local_count : Z) : M Z :=
  for_loop fuel (fun off => isub (iadd off BUFFSIZE) 1 <? local_count)
           (fun off => iadd off BUFFSIZE)
           (chunk_body fuel src_ptr dst_ptr valpha) 0.

(* void sw_slave_sscal_f(sscalPara *para), run by the worker whose
   athread_get_id(-1) is [id] *)
Definition sw_slave_sscal_f (fuel : nat) (para : sscalPara) (id : Z) : M unit :=
  ldm_malloc Local_src (BUFFSIZE * sizeof_float) ;;
  ldm_malloc Local_dst (BUFFSIZE * sizeof_float) ;;
  let count := count para in
  let local_count := local_count_of id count in
  let start := start_of id count in
  let src_ptr := src para + start in
  let dst_ptr := dst para + start in
  let alpha := alpha para in
  let valpha := simd_splat alpha in
  assign_reply Replyget 0 ;; assign_reply Replyput 0 ;;
  dma_set_op Dma_get_sscal_src DMA_GET ;;
  dma_set_mode Dma_get_sscal_src PE_MODE ;;
  dma_set_reply Dma_get_sscal_src Replyget ;;
  dma_set_op Dma_put_sscal_dst DMA_PUT ;;
  dma_set_mode Dma_put_sscal_dst PE_MODE ;;
  dma_set_reply Dma_put_sscal_dst Replyput ;;
  dma_set_size Dma_get_sscal_src (BUFFSIZE * sizeof_float) ;;
  dma_set_size Dma_put_sscal_dst (BUFFSIZE * sizeof_float) ;;
  off <- main_loop fuel src_ptr dst_ptr valpha local_count ;;
  (if off <? local_count
   then tail_body fuel src_ptr dst_ptr alpha valpha local_count off
   else ret tt) ;;
  ldm_free Local_src (BUFFSIZE * sizeof_float) ;;
  ldm_free Local_dst (BUFFSIZE * sizeof_float).

(* void sw_slave_sscal_d(sscalPara *para): the whole body is inside a
   comment (lines 26-92), so the function returns at once *)
Definition sw_slave_sscal_d (para : sscalPara) (id : Z) : M unit :=
  ret tt.

(* the kernel run by each worker of [ids] in turn *)
Fixpoint run_workers (kernel : sscalPara -> Z -> M unit) (para : sscalPara)
         (ids : list Z) : M unit :=
  match ids with
  | [] => ret tt
  | id :: rest => kernel para id ;; run_workers kernel para rest
  end.

End Kernel.

(** ** Specification-level descriptions of what the kernel builds *)

(* the two descriptors as the kernel configures them (lines 113-122) *)
Definition desc_get (bytes : Z) : dma_desc := mk_desc DMA_GET PE_MODE Replyget bytes.
Definition desc_put (bytes : Z) : dma_desc := mk_desc DMA_PUT PE_MODE Replyput bytes.

(* the transfers of the first [k] full chunks of a partition whose source
   starts at [sp] and whose destination starts at [dp] *)
Definition chunk_events (sp dp : Z) (k : nat) : list event :=
  flat_map (fun j => [EvGet (sp + Z.of_nat j * BUFFSIZE) BUFFSIZE;
                      EvPut (dp + Z.of_nat j * BUFFSIZE) BUFFSIZE]) (seq 0 k).

(* the transfers of the partial last chunk, if there is one *)
Definition tail_events (sp dp lc : Z) : list event :=
  let off := lc / BUFFSIZE * BUFFSIZE in
  if off <? lc then [EvGet (sp + off) (lc - off); EvPut (dp + off) (lc - off)] else [].

(* the byte count the two descriptors hold once a partition of [lc]
   elements has been processed: that of the partial last chunk if there is
   one (lines 142, 155), else the one set at line 121-122 *)
Definition last_size (lc : Z) : Z :=
  let off := lc / BUFFSIZE * BUFFSIZE in
  if off <? lc then (lc - off) * sizeof_float else BUFFSIZE * sizeof_float.

(* all the transfers of a partition of [lc] elements *)
Definition transfer_events (sp dp lc : Z) : list event :=
  chunk_events sp dp (Z.to_nat (lc / BUFFSIZE)) ++ tail_events sp dp lc.

(* everything worker [id] logs in one run *)
Definition worker_events (src dst count id : Z) : list event :=
  [EvMalloc (BUFFSIZE * sizeof_float); EvMalloc (BUFFSIZE * sizeof_float)]
  ++ transfer_events (src + start_of id count) (dst + start_of id count)
                     (local_count_of id count)
  ++ [EvFree (BUFFSIZE * sizeof_float); EvFree (BUFFSIZE * sizeof_float)].

(* element i of the source never shares its address with another element j
   of the destination: the two vectors are apart, or they are the same *)
Definition no_cross_alias (sp dp n : Z) : Prop :=
  forall i j, 0 <= i < n -> 0 <= j < n -> i <> j -> sp + i <> dp + j.

Section Descriptions.

Context {elem : Type}.
Variable fmul : elem -> elem -> elem.

(* local_dst once its first [n] slots hold the scaled local_src *)
Definition scaled (a : elem) (L D : list elem) (n : nat) : list elem :=
  map (fun x => fmul x a) (take n L) ++ drop n D.

(* memory [g] is memory [g0] with the [n] elements at [dp] replaced by the
   scaled [n] elements of [g0] at [sp] *)
Definition scaled_mem (a : elem) (g0 g : Z -> elem) (sp dp n : Z) : Prop :=
  (forall x, ~ (dp <= x < dp + n) -> g x = g0 x) /\
  (no_cross_alias sp dp n ->
   forall k, 0 <= k < n -> g (dp + k) = fmul (g0 (sp + k)) a).

End Descriptions.

(* a transfer of worker [id] that stays inside the worker's own range of
   the vector it concerns; allocation events concern no vector *)
Definition event_within (src dst count id : Z) (e : event) : Prop :=
  match e with
  | EvGet a n =>
      0 < n /\ src + start_of id count <= a /\
      a + n <= src + start_of id count + local_count_of id count
  | EvPut a n =>
      0 < n /\ dst + start_of id count <= a /\
      a + n <= dst + start_of id count + local_count_of id count
  | EvMalloc _ | EvFree _ => True
  end.

(** ** Readings of an event log *)

(* the global addresses read by the in-transfers of a log, in the order
   in which they are read *)
Definition get_addrs (evs : list event) : list Z :=
  flat_map (fun e => match e with EvGet a n => seqZ a n | _ => [] end) evs.

(* the global addresses written by the out-transfers of a log *)
Definition put_addrs (evs : list event) : list Z :=
  flat_map (fun e => match e with EvPut a n => seqZ a n | _ => [] end) evs.

Definition is_get (e : event) : bool :=
  match e with EvGet _ _ => true | _ => false end.

Definition is_put (e : event) : bool :=
  match e with EvPut _ _ => true | _ => false end.

Definition count_events (p : event -> bool) (evs : list event) : Z :=
  Z.of_nat (length (List.filter p evs)).

(* a transfer moves at least one element and at most one staging buffer *)
Definition transfer_size_ok (e : event) : Prop :=
  match e with
  | EvGet _ n | EvPut _ n => 0 < n <= BUFFSIZE
  | EvMalloc _ | EvFree _ => True
  end.

(* the local counts of the whole population, added up *)
Definition total_count (N : Z) : Z :=
  foldr Z.add 0 (map (fun id => local_count_of id N) (seqZ 0 SPNUM)).

(* [r1] is [r2] computed with a smaller iteration budget: the same
   result, unless the budget ran out first *)
Definition approx {A : Type} (r1 r2 : result A) : Prop :=
  r1 = Fault OutOfFuel \/ r1 = r2.

(** ** The element types *)

(* IEEE 754 binary32 (C float on the target): 24 bits of precision,
   maximal exponent 128, multiplication rounded to nearest even *)
Definition float32 : Type := spec_float.
Definition f32_mul : float32 -> float32 -> float32 := SFmul 24 128.
Definition f32_of_Z (z : Z) : float32 := binary_normalize 24 128 z 0 false.
Definition f32_finite (x : float32) : bool :=
  match x with
  | S754_zero _ | S754_finite _ _ _ => true
  | S754_infinity _ | S754_nan => false
  end.

(* IEEE 754 binary64 (C double) *)
Definition float64 : Type := spec_float.
Definition f64_mul : float64 -> float64 -> float64 := SFmul 53 1024.
Definition f64_of_Z (z : Z) : float64 := binary_normalize 53 1024 z 0 false.

(** ** Concrete machines used to exercise the statements *)

(* a worker state whose global memory holds the float i at address i *)
Definition ramp_state32 : @state float32 :=
  mk_state f32_of_Z [] [] (mk_desc DMA_PUT RANK_MODE Replyput 7)
           (mk_desc DMA_GET BCAST_MODE Replyget 3) 5 9 [].

Definition ramp_state64 : @state float64 :=
  mk_state f64_of_Z [] [] (mk_desc DMA_PUT RANK_MODE Replyput 7)
           (mk_desc DMA_GET BCAST_MODE Replyget 3) 5 9 [].

Definition zero_ldm32 : ldm_buf -> nat -> float32 := fun _ _ => S754_zero false.

(* x = [0,1,...,9] at address 0, y at address 100, alpha = 2.0 *)
Definition scenario_para : @sscalPara float32 := mk_para 0 100 (f32_of_Z 2) 10.

(* the same vector scaled in place *)
Definition in_place_para : @sscalPara float32 := mk_para 1 1 (f32_of_Z 2) 1.

Definition scenario_para64 : @sscalPara float64 := mk_para 0 100 (f64_of_Z 2) 10.

(* a call with a negative element count *)
Definition negative_para : @sscalPara float32 := mk_para 0 100 (f32_of_Z 2) (-5).

(* a worker state in the middle of a tail of seven elements: local_src
   holds 1.0 .. 7.0 and a stale eighth value *)
Definition tail_state32 : @state float32 :=
  mk_state f32_of_Z (map f32_of_Z [1; 2; 3; 4; 5; 6; 7; 99])
           (map f32_of_Z [0; 0; 0; 0; 0; 0; 0; 42])
           (desc_get 28) (desc_put (BUFFSIZE * sizeof_float)) 0 0 [].

(** * The arithmetic of the partitioner

    Within the range of a C int no operation of lines 102-103 wraps, and
    the start offsets of consecutive workers chain up from 0 to [count]. *)

Lemma wrap_small z : INT_MIN <= z <= INT_MAX -> wrap z = z.
Proof.
  unfold INT_MIN, INT_MAX, wrap. intros H.
  rewrite Z.mod_small; lia.
Qed.

Lemma BUFFSIZE_eq : BUFFSIZE = 4096.
Proof. reflexivity. Qed.

Lemma INT_MAX_eq : INT_MAX = 2147483647.
Proof. reflexivity. Qed.

Lemma INT_MIN_eq : INT_MIN = -2147483648.
Proof. reflexivity. Qed.

Lemma idiv_SPNUM n : 0 <= n <= INT_MAX -> idiv n SPNUM = n / 64.
Proof.
  intros H. unfold idiv, SPNUM. rewrite Z.quot_div_nonneg by lia.
  rewrite INT_MAX_eq in H.
  apply wrap_small. rewrite INT_MAX_eq, INT_MIN_eq.
  pose proof (Z.div_pos n 64). pose proof (Z.div_le_upper_bound n 64 2147483647). lia.
Qed.

Lemma irem_SPNUM n : 0 <= n <= INT_MAX -> irem n SPNUM = n mod 64.
Proof.
  intros H. unfold irem, SPNUM. rewrite Z.rem_mod_nonneg by lia.
  rewrite INT_MAX_eq in H.
  apply wrap_small. rewrite INT_MAX_eq, INT_MIN_eq.
  pose proof (Z.mod_pos_bound n 64). lia.
Qed.

Lemma local_count_closed id n :
  0 <= n <= INT_MAX ->
  local_count_of id n = n / 64 + (if id <? n mod 64 then 1 else 0).
Proof.
  intros H. unfold local_count_of, ilt.
  rewrite idiv_SPNUM, irem_SPNUM by assumption.
  unfold iadd. apply wrap_small.
  rewrite INT_MAX_eq, INT_MIN_eq in *.
  pose proof (Z.div_pos n 64). pose proof (Z.div_le_upper_bound n 64 33554432).
  destruct (id <? n mod 64); lia.
Qed.

Lemma start_closed id n :
  0 <= n <= INT_MAX -> 0 <= id <= 64 ->
  start_of id n = id * (n / 64) + Z.min id (n mod 64).
Proof.
  intros H Hid. unfold start_of.
  rewrite idiv_SPNUM, irem_SPNUM by assumption.
  rewrite INT_MAX_eq in *.
  pose proof (Z.div_mod n 64 ltac:(lia)) as Hdm.
  pose proof (Z.mod_pos_bound n 64 ltac:(lia)) as Hm.
  assert (0 <= n / 64) by (apply Z.div_pos; lia).
  assert (Hmin : (if id <? n mod 64 then id else n mod 64) = Z.min id (n mod 64)).
  { destruct (id <? n mod 64) eqn:E; lia. }
  rewrite Hmin.
  unfold iadd, imul.
  rewrite (wrap_small (id * (n / 64))) by (rewrite INT_MAX_eq, INT_MIN_eq; nia).
  apply wrap_small. rewrite INT_MAX_eq, INT_MIN_eq. nia.
Qed.

Lemma start_succ id n :
  0 <= n <= INT_MAX -> 0 <= id < 64 ->
  start_of (id + 1) n = start_of id n + local_count_of id n.
Proof.
  intros H Hid. rewrite !start_closed, local_count_closed by lia.
  destruct (id <? n mod 64) eqn:E; lia.
Qed.

Lemma start_0 n : 0 <= n <= INT_MAX -> start_of 0 n = 0.
Proof.
  intros H. rewrite start_closed by lia.
  pose proof (Z.mod_pos_bound n 64 ltac:(lia)). lia.
Qed.

Lemma start_last n : 0 <= n <= INT_MAX -> start_of 64 n = n.
Proof.
  intros H. rewrite start_closed by lia.
  pose proof (Z.mod_pos_bound n 64 ltac:(lia)).
  pose proof (Z.div_mod n 64 ltac:(lia)). lia.
Qed.

Lemma local_count_nonneg id n : 0 <= n <= INT_MAX -> 0 <= local_count_of id n.
Proof.
  intros H. rewrite local_count_closed by lia.
  assert (0 <= n / 64) by (apply Z.div_pos; lia).
  destruct (id <? n mod 64); lia.
Qed.

Lemma start_mono id1 id2 n :
  0 <= n <= INT_MAX -> 0 <= id1 -> id1 <= id2 -> id2 <= 64 ->
  start_of id1 n <= start_of id2 n.
Proof.
  intros H H1 H12 H2. rewrite !start_closed by lia.
  assert (0 <= n / 64) by (apply Z.div_pos; lia).
  nia.
Qed.

Lemma start_bounds id n :
  0 <= n <= INT_MAX -> 0 <= id < 64 ->
  0 <= start_of id n /\ start_of id n + local_count_of id n <= n.
Proof.
  intros H Hid. split.
  - rewrite <- (start_0 n H). apply start_mono; lia.
  - rewrite <- start_succ by lia. rewrite <- (start_last n H) at 2.
    apply start_mono; lia.
Qed.

(* a discrete intermediate value argument over the worker index *)
Lemma find_worker n i :
  0 <= n <= INT_MAX -> 0 <= i < n ->
  forall k : nat, (k <= 64)%nat -> i < start_of (Z.of_nat k) n ->
  exists id, 0 <= id < Z.of_nat k /\ in_range id n i.
Proof.
  intros H Hi. induction k as [|k IH]; intros Hk Hlt.
  - simpl in Hlt. rewrite start_0 in Hlt by assumption. lia.
  - destruct (Z.lt_ge_cases i (start_of (Z.of_nat k) n)) as [Hlo|Hhi].
    + destruct (IH ltac:(lia) Hlo) as (id & ? & ?). exists id. split; [lia|assumption].
    + exists (Z.of_nat k). split; [lia|]. unfold in_range.
      rewrite <- start_succ by lia.
      replace (Z.of_nat k + 1) with (Z.of_nat (S k)) by lia. lia.
Qed.

Lemma in_range_unique n id1 id2 i :
  0 <= n <= INT_MAX -> 0 <= id1 < 64 -> 0 <= id2 < 64 ->
  in_range id1 n i -> in_range id2 n i -> id1 = id2.
Proof.
  intros H H1 H2 [L1 U1] [L2 U2].
  rewrite <- start_succ in U1, U2 by lia.
  destruct (Z.lt_trichotomy id1 id2) as [Hlt|[Heq|Hgt]]; [|assumption|].
  - pose proof (start_mono (id1 + 1) id2 n H ltac:(lia) ltac:(lia) ltac:(lia)). lia.
  - pose proof (start_mono (id2 + 1) id1 n H ltac:(lia) ltac:(lia) ltac:(lia)). lia.
Qed.

(** * The pipeline of one worker, then of the whole population *)

Section KernelProofs.
Context {elem : Type}.
Variable fmul : elem -> elem -> elem.
Variable uninit : ldm_buf -> nat -> elem.

Abbreviation state := (@state elem).
Abbreviation M := (@M elem).

Lemma bind_ok {A B} (m : M A) (k : A -> M B) s a s' :
  m s = Ok (a, s') -> bind m k s = k a s'.
Proof. intros H. unfold bind. rewrite H. reflexivity. Qed.

Lemma for_loop_inv (Inv : Z -> state -> Prop) (meas : Z -> nat)
      (cond : Z -> bool) (step : Z -> Z) (body : Z -> M unit) :
  (forall i s, Inv i s -> cond i = true ->
     (meas (step i) < meas i)%nat /\
     exists s', body i s = Ok (tt, s') /\ Inv (step i) s') ->
  forall fuel i s, (meas i < fuel)%nat -> Inv i s ->
  exists j s', for_loop fuel cond step body i s = Ok (j, s') /\ Inv j s' /\ cond j = false.
Proof.
  intros Hbody. induction fuel as [|fuel IH]; intros i s Hfuel HI; [lia|].
  simpl. destruct (cond i) eqn:Hc.
  - destruct (Hbody i s HI Hc) as (Hdec & s1 & Hrun & HI1).
    rewrite (bind_ok _ _ _ _ _ Hrun).
    apply IH; [lia | assumption].
  - exists i, s. unfold ret. auto.
Qed.

(** LDM accesses: a checked access succeeds exactly on the indices of the
    buffer. *)

Lemma ldm_load_iff b i (s : state) :
  (exists v, ldm_load b i s = Ok (v, s)) <-> 0 <= i < Z.of_nat (length (buf b s)).
Proof.
  unfold ldm_load. destruct (Z.leb_spec 0 i) as [Hi|Hi].
  - destruct (buf b s !! Z.to_nat i) as [v|] eqn:Hv.
    + split; [|exists v; reflexivity].
      intros _. apply lookup_lt_Some in Hv. lia.
    + split; [intros [v Hv']; discriminate|].
      intros Hlt. apply lookup_ge_None in Hv. lia.
  - split; [intros [v Hv]; discriminate | lia].
Qed.

Lemma ldm_store_iff b i v (s : state) :
  (exists s', ldm_store b i v s = Ok (tt, s')) <-> 0 <= i < Z.of_nat (length (buf b s)).
Proof.
  unfold ldm_store.
  destruct (Z.leb_spec 0 i); destruct (Z.ltb_spec i (Z.of_nat (length (buf b s))));
    simpl; split; try lia; try (intros [s' Hs]; discriminate); eauto.
Qed.

Lemma ldm_malloc_length b (s : state) :
  exists s', ldm_malloc uninit b (BUFFSIZE * sizeof_float) s = Ok (tt, s') /\
             Z.of_nat (length (buf b s')) = BUFFSIZE.
Proof.
  exists (log (EvMalloc (BUFFSIZE * sizeof_float))
              (set_buf b (map (uninit b)
                              (seq 0 (Z.to_nat (BUFFSIZE * sizeof_float / sizeof_float))))
                       s)).
  split; [reflexivity|].
  rewrite Z.div_mul by (unfold sizeof_float; lia).
  transitivity (Z.of_nat (Z.to_nat BUFFSIZE));
    [|rewrite Z2Nat.id by (rewrite BUFFSIZE_eq; lia); reflexivity].
  f_equal.
  destruct b, s; cbn [log set_buf buf local_src local_dst];
    rewrite length_map, length_seq; reflexivity.
Qed.

Lemma ldm_load_ok b i (s : state) x :
  0 <= i -> buf b s !! Z.to_nat i = Some x -> ldm_load b i s = Ok (x, s).
Proof.
  intros Hi Hx. unfold ldm_load.
  destruct (Z.leb_spec 0 i); [|lia]. rewrite Hx. reflexivity.
Qed.

Lemma ldm_store_ok b i v (s : state) :
  0 <= i < Z.of_nat (length (buf b s)) ->
  ldm_store b i v s = Ok (tt, set_buf b (<[Z.to_nat i := v]> (buf b s)) s).
Proof.
  intros Hi. unfold ldm_store.
  destruct (Z.leb_spec 0 i); [|lia].
  destruct (Z.ltb_spec i (Z.of_nat (length (buf b s)))); [|lia]. reflexivity.
Qed.

(** The list that the compute loops build in local_dst *)

Lemma scaled_length a (L D : list elem) n :
  (n <= length L)%nat -> (n <= length D)%nat ->
  length (scaled fmul a L D n) = length D.
Proof.
  intros HL HD. unfold scaled.
  rewrite length_app, length_map, length_take, length_drop. lia.
Qed.

Lemma scaled_0 a (L D : list elem) : scaled fmul a L D 0 = D.
Proof. unfold scaled. rewrite take_0, drop_0. reflexivity. Qed.

Lemma scaled_S a (L D : list elem) n x :
  L !! n = Some x -> (n < length D)%nat ->
  <[n := fmul x a]> (scaled fmul a L D n) = scaled fmul a L D (S n).
Proof.
  intros Hx HD. unfold scaled.
  pose proof (lookup_lt_Some _ _ _ Hx) as HL.
  assert (Hlen : length (map (fun y => fmul y a) (take n L)) = n).
  { rewrite length_map, length_take. lia. }
  rewrite insert_app_r_alt by lia. rewrite Hlen, Nat.sub_diag.
  destruct (lookup_lt_is_Some_2 D n HD) as [d Hd].
  rewrite (drop_S _ _ _ Hd). simpl.
  rewrite (take_S_r _ _ _ Hx), map_app. simpl.
  rewrite <- app_assoc. reflexivity.
Qed.

Lemma scaled_lookup a (L D : list elem) n j x :
  (j < n)%nat -> L !! j = Some x -> scaled fmul a L D n !! j = Some (fmul x a).
Proof.
  intros Hj Hx. unfold scaled.
  pose proof (lookup_lt_Some _ _ _ Hx) as HL.
  rewrite lookup_app_l by (rewrite length_map, length_take; lia).
  rewrite list_lookup_fmap, lookup_take_lt by lia. rewrite Hx. reflexivity.
Qed.

Lemma set_buf_twice b l l' (s : state) :
  set_buf b l (set_buf b l' s) = set_buf b l s.
Proof. destruct b, s; reflexivity. Qed.

Lemma buf_set_buf b l (s : state) : buf b (set_buf b l s) = l.
Proof. destruct b, s; reflexivity. Qed.

Ltac buflen :=
  repeat (rewrite buf_set_buf || rewrite length_insert); unfold buf; lia.

Lemma scalar_body_ok a (s : state) (n : nat) x :
  local_src s !! n = Some x -> (n < length (local_dst s))%nat ->
  scalar_body fmul a (Z.of_nat n) s
  = Ok (tt, set_buf Local_dst (<[n := fmul x a]> (local_dst s)) s).
Proof.
  intros Hx Hn. unfold scalar_body.
  rewrite (bind_ok _ _ _ x s).
  2:{ apply ldm_load_ok; [lia|]. rewrite Nat2Z.id. exact Hx. }
  rewrite ldm_store_ok by (unfold buf; lia). rewrite Nat2Z.id. reflexivity.
Qed.

(* one scalar step on the partially scaled destination *)
Lemma scalar_body_scaled a (s0 : state) (n : nat) :
  (n < length (local_src s0))%nat -> (n < length (local_dst s0))%nat ->
  scalar_body fmul a (Z.of_nat n)
    (set_buf Local_dst (scaled fmul a (local_src s0) (local_dst s0) n) s0)
  = Ok (tt, set_buf Local_dst (scaled fmul a (local_src s0) (local_dst s0) (S n)) s0).
Proof.
  intros HL HD.
  destruct (lookup_lt_is_Some_2 _ _ HL) as [x Hx].
  rewrite (scalar_body_ok a _ n x).
  - change (local_dst (set_buf Local_dst ?l s0)) with (buf Local_dst (set_buf Local_dst l s0)).
    rewrite buf_set_buf, set_buf_twice, (scaled_S a _ _ n x Hx HD). reflexivity.
  - rewrite <- Hx. destruct s0; reflexivity.
  - change (local_dst (set_buf Local_dst ?l s0)) with (buf Local_dst (set_buf Local_dst l s0)).
    rewrite buf_set_buf, scaled_length; lia.
Qed.

Lemma simd_body_ok a (s : state) (n : nat) x0 x1 x2 x3 :
  local_src s !! n = Some x0 -> local_src s !! S n = Some x1 ->
  local_src s !! S (S n) = Some x2 -> local_src s !! S (S (S n)) = Some x3 ->
  (S (S (S n)) < length (local_dst s))%nat ->
  simd_body fmul (simd_splat a) (Z.of_nat n) s
  = Ok (tt, set_buf Local_dst
              (<[S (S (S n)) := fmul x3 a]>
                 (<[S (S n) := fmul x2 a]>
                    (<[S n := fmul x1 a]> (<[n := fmul x0 a]> (local_dst s))))) s).
Proof.
  intros H0 H1 H2 H3 Hn. unfold simd_body, simd_load, simd_store.
  replace (Z.of_nat n + 1) with (Z.of_nat (S n)) by lia.
  replace (Z.of_nat n + 2) with (Z.of_nat (S (S n))) by lia.
  replace (Z.of_nat n + 3) with (Z.of_nat (S (S (S n)))) by lia.
  rewrite (bind_ok _ _ s (V4 x0 x1 x2 x3) s).
  2:{ rewrite (bind_ok _ _ s x0 s) by (apply ldm_load_ok; [lia|]; rewrite Nat2Z.id; exact H0).
      rewrite (bind_ok _ _ s x1 s) by (apply ldm_load_ok; [lia|]; rewrite Nat2Z.id; exact H1).
      rewrite (bind_ok _ _ s x2 s) by (apply ldm_load_ok; [lia|]; rewrite Nat2Z.id; exact H2).
      rewrite (bind_ok _ _ s x3 s) by (apply ldm_load_ok; [lia|]; rewrite Nat2Z.id; exact H3).
      reflexivity. }
  unfold simd_mul, simd_splat. cbn [lane0 lane1 lane2 lane3].
  erewrite bind_ok by (apply ldm_store_ok; unfold buf; lia).
  erewrite bind_ok by (apply ldm_store_ok; buflen).
  erewrite bind_ok
    by (apply ldm_store_ok; buflen).
  rewrite ldm_store_ok by (buflen).
  repeat (rewrite buf_set_buf || rewrite set_buf_twice). rewrite !Nat2Z.id. reflexivity.
Qed.

Lemma simd_body_scaled a (s0 : state) (n : nat) :
  (n + 4 <= length (local_src s0))%nat -> (n + 4 <= length (local_dst s0))%nat ->
  simd_body fmul (simd_splat a) (Z.of_nat n)
    (set_buf Local_dst (scaled fmul a (local_src s0) (local_dst s0) n) s0)
  = Ok (tt, set_buf Local_dst (scaled fmul a (local_src s0) (local_dst s0) (n + 4)) s0).
Proof.
  intros HL HD.
  destruct (lookup_lt_is_Some_2 (local_src s0) n ltac:(lia)) as [x0 H0].
  destruct (lookup_lt_is_Some_2 (local_src s0) (S n) ltac:(lia)) as [x1 H1].
  destruct (lookup_lt_is_Some_2 (local_src s0) (S (S n)) ltac:(lia)) as [x2 H2].
  destruct (lookup_lt_is_Some_2 (local_src s0) (S (S (S n))) ltac:(lia)) as [x3 H3].
  assert (Hsrc : forall l, local_src (set_buf Local_dst l s0) = local_src s0)
    by (intros; destruct s0; reflexivity).
  assert (Hdst : forall l, local_dst (set_buf Local_dst l s0) = l)
    by (intros; destruct s0; reflexivity).
  rewrite (simd_body_ok a _ n x0 x1 x2 x3); rewrite ?Hsrc, ?Hdst; try assumption.
  - rewrite set_buf_twice.
    rewrite (scaled_S a _ _ n x0 H0) by lia.
    rewrite (scaled_S a _ _ (S n) x1 H1) by lia.
    rewrite (scaled_S a _ _ (S (S n)) x2 H2) by lia.
    rewrite (scaled_S a _ _ (S (S (S n))) x3 H3) by lia.
    replace (n + 4)%nat with (S (S (S (S n)))) by lia. reflexivity.
  - rewrite scaled_length; lia.
Qed.


Lemma set_dst_same (s : state) : set_buf Local_dst (local_dst s) s = s.
Proof. destruct s; reflexivity. Qed.

(** The vector loop, for either of its two guards: [m] is the index at
    which the guard first fails. *)
Lemma simd_loop_ok a (cond : Z -> bool) (s0 : state) (m fuel : nat) :
  (m mod 4 = 0)%nat ->
  (m <= length (local_src s0))%nat -> (m <= length (local_dst s0))%nat ->
  Z.of_nat m + 4 <= INT_MAX ->
  (forall k : nat, (k mod 4 = 0)%nat -> (k <= m)%nat ->
                   cond (Z.of_nat k) = (Z.of_nat k <? Z.of_nat m)) ->
  (m < fuel)%nat ->
  for_loop fuel cond (fun i => iadd i SIMDSIZE) (simd_body fmul (simd_splat a)) 0 s0
  = Ok (Z.of_nat m,
        set_buf Local_dst (scaled fmul a (local_src s0) (local_dst s0) m) s0).
Proof.
  intros Hm4 HL HD Hmax Hcond Hfuel.
  set (Inv := fun (i : Z) (s : state) =>
    exists k : nat, i = Z.of_nat k /\ (k mod 4 = 0)%nat /\ (k <= m)%nat /\
      s = set_buf Local_dst (scaled fmul a (local_src s0) (local_dst s0) k) s0).
  destruct (for_loop_inv Inv (fun i => Z.to_nat (Z.of_nat m - i)) cond
              (fun i => iadd i SIMDSIZE) (simd_body fmul (simd_splat a)))
    with (fuel := fuel) (i := 0) (s := s0) as (j & s' & Hrun & HI & Hc).
  - intros i s (k & -> & Hk4 & Hkm & ->) Hc.
    rewrite Hcond in Hc by assumption.
    apply Z.ltb_lt in Hc.
    assert (k + 4 <= m)%nat.
    { pose proof (Nat.div_mod_eq k 4). pose proof (Nat.div_mod_eq m 4). lia. }
    assert (Hstep : iadd (Z.of_nat k) SIMDSIZE = Z.of_nat (k + 4)).
    { unfold iadd, SIMDSIZE. rewrite wrap_small; [lia|].
      rewrite INT_MIN_eq. lia. }
    rewrite Hstep. split; [lia|].
    eexists. split; [apply simd_body_scaled; lia|].
    exists (k + 4)%nat. repeat split; try lia.
    rewrite <- Nat.Div0.add_mod_idemp_l, Hk4. reflexivity.
  - lia.
  - exists 0%nat. repeat split; try lia.
    rewrite scaled_0, set_dst_same. reflexivity.
  - destruct HI as (k & -> & Hk4 & Hkm & ->).
    rewrite Hcond in Hc by assumption. apply Z.ltb_ge in Hc.
    assert (k = m) by lia. subst k. exact Hrun.
Qed.

(** The scalar loop over the leftover elements [m, n). *)
Lemma scalar_loop_ok a (s0 : state) (m n fuel : nat) :
  (m <= n)%nat ->
  (n <= length (local_src s0))%nat -> (n <= length (local_dst s0))%nat ->
  Z.of_nat n + 1 <= INT_MAX ->
  (n < fuel)%nat ->
  for_loop fuel (fun i => i <? Z.of_nat n) (fun i => iadd i 1) (scalar_body fmul a)
    (Z.of_nat m)
    (set_buf Local_dst (scaled fmul a (local_src s0) (local_dst s0) m) s0)
  = Ok (Z.of_nat n,
        set_buf Local_dst (scaled fmul a (local_src s0) (local_dst s0) n) s0).
Proof.
  intros Hmn HL HD Hmax Hfuel.
  set (Inv := fun (i : Z) (s : state) =>
    exists k : nat, i = Z.of_nat k /\ (m <= k <= n)%nat /\
      s = set_buf Local_dst (scaled fmul a (local_src s0) (local_dst s0) k) s0).
  destruct (for_loop_inv Inv (fun i => Z.to_nat (Z.of_nat n - i))
              (fun i => i <? Z.of_nat n)
              (fun i => iadd i 1) (scalar_body fmul a))
    with (fuel := fuel) (i := Z.of_nat m)
         (s := set_buf Local_dst (scaled fmul a (local_src s0) (local_dst s0) m) s0)
    as (j & s' & Hrun & HI & Hc).
  - intros i s (k & -> & Hk & ->) Hc.
    apply Z.ltb_lt in Hc.
    assert (Hstep : iadd (Z.of_nat k) 1 = Z.of_nat (S k)).
    { unfold iadd. rewrite wrap_small; [lia|]. rewrite INT_MIN_eq. lia. }
    rewrite Hstep. split; [lia|].
    eexists. split; [apply scalar_body_scaled; lia|].
    exists (S k). repeat split; lia.
  - lia.
  - exists m. repeat split; lia.
  - destruct HI as (k & -> & Hk & ->).
    apply Z.ltb_ge in Hc. assert (k = n) by lia. subst k. exact Hrun.
Qed.

(** DMA transfers and waits on explicit states *)

Lemma dma_get_ok (g : Z -> elem) (ls ld : list elem) dg dp rg rp tr md n mem :
  0 <= n <= Z.of_nat (length ls) ->
  dma (mk_desc DMA_GET md Replyget (n * sizeof_float)) mem Local_src
      (mk_state g ls ld dg dp rg rp tr)
  = Ok (tt, mk_state g (gather g mem (Z.to_nat n) ++ drop (Z.to_nat n) ls) ld
                     dg dp (rg + 1) rp (tr ++ [EvGet mem n])).
Proof.
  intros Hn. unfold dma. cbn [d_size d_op d_reply buf local_src].
  rewrite Z.div_mul, Z.mod_mul by (unfold sizeof_float; lia).
  destruct (Z.leb_spec 0 (n * sizeof_float)); [|unfold sizeof_float in *; lia].
  destruct (Z.leb_spec n (Z.of_nat (length ls))); [|lia].
  reflexivity.
Qed.

Lemma dma_put_ok (g : Z -> elem) (ls ld : list elem) dg dp rg rp tr md n mem :
  0 <= n <= Z.of_nat (length ld) ->
  dma (mk_desc DMA_PUT md Replyput (n * sizeof_float)) mem Local_dst
      (mk_state g ls ld dg dp rg rp tr)
  = Ok (tt, mk_state (scatter g mem n ld) ls ld
                     dg dp rg (rp + 1) (tr ++ [EvPut mem n])).
Proof.
  intros Hn. unfold dma. cbn [d_size d_op d_reply buf local_dst].
  rewrite Z.div_mul, Z.mod_mul by (unfold sizeof_float; lia).
  destruct (Z.leb_spec 0 (n * sizeof_float)); [|unfold sizeof_float in *; lia].
  destruct (Z.leb_spec n (Z.of_nat (length ld))); [|lia].
  reflexivity.
Qed.


Lemma dma_wait_ok r n (s : state) : reply r s = n -> dma_wait r n s = Ok (tt, s).
Proof. intros H. unfold dma_wait. rewrite H, Z.eqb_refl. reflexivity. Qed.

Lemma BUFFSIZE_nat_mod : (Z.to_nat BUFFSIZE mod 4 = 0)%nat.
Proof. reflexivity. Qed.

(** One iteration of the full-chunk loop (lines 126-138). *)
Lemma chunk_body_ok a fuel sp dp off (g : Z -> elem) (ls ld : list elem) tr :
  length ls = Z.to_nat BUFFSIZE -> length ld = Z.to_nat BUFFSIZE ->
  (Z.to_nat BUFFSIZE < fuel)%nat ->
  chunk_body fmul fuel sp dp (simd_splat a) off
    (mk_state g ls ld (desc_get (BUFFSIZE * sizeof_float))
              (desc_put (BUFFSIZE * sizeof_float)) 0 0 tr)
  = Ok (tt,
        mk_state
          (scatter g (dp + off) BUFFSIZE
             (scaled fmul a (gather g (sp + off) (Z.to_nat BUFFSIZE)
                             ++ drop (Z.to_nat BUFFSIZE) ls) ld (Z.to_nat BUFFSIZE)))
          (gather g (sp + off) (Z.to_nat BUFFSIZE) ++ drop (Z.to_nat BUFFSIZE) ls)
          (scaled fmul a (gather g (sp + off) (Z.to_nat BUFFSIZE)
                          ++ drop (Z.to_nat BUFFSIZE) ls) ld (Z.to_nat BUFFSIZE))
          (desc_get (BUFFSIZE * sizeof_float)) (desc_put (BUFFSIZE * sizeof_float))
          0 0 ((tr ++ [EvGet (sp + off) BUFFSIZE]) ++ [EvPut (dp + off) BUFFSIZE])).
Proof.
  intros Hls Hld Hfuel. unfold chunk_body.
  pose proof BUFFSIZE_eq as HB.
  erewrite bind_ok
    by (cbv beta; cbn [dma_get_sscal_src]; unfold desc_get; apply dma_get_ok; lia).
  erewrite bind_ok by (apply dma_wait_ok; reflexivity).
  erewrite bind_ok by reflexivity.
  cbn [set_reply].
  cbn [gmem local_src local_dst dma_get_sscal_src dma_put_sscal_dst replyget replyput trace].
  set (ls' := gather g (sp + off) (Z.to_nat BUFFSIZE) ++ drop (Z.to_nat BUFFSIZE) ls).
  assert (Hls' : length ls' = Z.to_nat BUFFSIZE).
  { unfold ls', gather. rewrite length_app, length_map, length_seq, length_drop. lia. }
  erewrite bind_ok.
  2:{ apply (simd_loop_ok a _ _ (Z.to_nat BUFFSIZE)); cbn [local_src local_dst];
      try lia; try apply BUFFSIZE_nat_mod.
      - rewrite INT_MAX_eq. lia.
      - intros k _ _. rewrite Z2Nat.id by lia. reflexivity. }
  cbn [set_buf local_src local_dst gmem dma_get_sscal_src dma_put_sscal_dst
       replyget replyput trace].
  erewrite bind_ok.
  2:{ cbv beta. cbn [dma_put_sscal_dst]. unfold desc_put. apply dma_put_ok.
      rewrite scaled_length; lia. }
  erewrite bind_ok by (apply dma_wait_ok; reflexivity).
  reflexivity.
Qed.


(** The tail branch (lines 142-157) for a remainder of [n] elements. *)
Lemma tail_body_ok a fuel sp dp lc off (n : nat) (g : Z -> elem)
      (ls ld : list elem) dg0 dp0 tr :
  isub lc off = Z.of_nat n ->
  (n <= length ls)%nat -> (n <= length ld)%nat ->
  Z.of_nat n <= BUFFSIZE -> (n < fuel)%nat ->
  tail_body fmul fuel sp dp a (simd_splat a) lc off
    (mk_state g ls ld (desc_get dg0) (desc_put dp0) 0 0 tr)
  = Ok (tt,
        mk_state
          (scatter g (dp + off) (Z.of_nat n)
             (scaled fmul a (gather g (sp + off) n ++ drop n ls) ld n))
          (gather g (sp + off) n ++ drop n ls)
          (scaled fmul a (gather g (sp + off) n ++ drop n ls) ld n)
          (desc_get (Z.of_nat n * sizeof_float)) (desc_put (Z.of_nat n * sizeof_float))
          0 0 ((tr ++ [EvGet (sp + off) (Z.of_nat n)]) ++ [EvPut (dp + off) (Z.of_nat n)])).
Proof.
  intros Hn Hls Hld HnB Hfuel. unfold tail_body. rewrite Hn.
  pose proof BUFFSIZE_eq as HB.
  erewrite bind_ok by reflexivity.
  cbn [set_desc desc d_op d_mode d_reply desc_get
       gmem local_src local_dst dma_get_sscal_src dma_put_sscal_dst replyget replyput trace].
  erewrite bind_ok
    by (cbv beta; cbn [dma_get_sscal_src]; apply dma_get_ok; lia).
  erewrite bind_ok by (apply dma_wait_ok; reflexivity).
  erewrite bind_ok by reflexivity.
  cbn [set_reply].
  cbn [gmem local_src local_dst dma_get_sscal_src dma_put_sscal_dst replyget replyput trace].
  rewrite Nat2Z.id.
  set (ls' := gather g (sp + off) n ++ drop n ls).
  assert (Hls' : length ls' = length ls).
  { unfold ls', gather. rewrite length_app, length_map, length_seq, length_drop. lia. }
  pose proof (Nat.div_mod_eq n 4) as Hdiv.
  pose proof (Nat.mod_upper_bound n 4 ltac:(lia)) as Hrem.
  erewrite bind_ok.
  2:{ apply (simd_loop_ok a _ _ (4 * (n / 4))); cbn [local_src local_dst]; try lia.
      - rewrite Nat.mul_comm. apply Nat.Div0.mod_mul.
      - rewrite INT_MAX_eq. lia.
      - intros k Hk4 Hkm.
        pose proof (Nat.div_mod_eq k 4) as Hkdiv.
        assert (Hi : isub (iadd (Z.of_nat k) SIMDSIZE) 1 = Z.of_nat k + 3).
        { unfold isub, iadd, SIMDSIZE.
          rewrite (wrap_small (Z.of_nat k + 4)) by (rewrite INT_MIN_eq, INT_MAX_eq; lia).
          rewrite wrap_small by (rewrite INT_MIN_eq, INT_MAX_eq; lia). lia. }
        rewrite Hi.
        destruct (Z.ltb_spec (Z.of_nat k + 3) (Z.of_nat n));
          destruct (Z.ltb_spec (Z.of_nat k) (Z.of_nat (4 * (n / 4)))); try reflexivity; lia. }
  erewrite bind_ok.
  2:{ apply (scalar_loop_ok a _ (4 * (n / 4)) n); cbn [local_src local_dst]; try lia.
      rewrite INT_MAX_eq. lia. }
  cbn [set_buf local_src local_dst gmem dma_get_sscal_src dma_put_sscal_dst
       replyget replyput trace].
  erewrite bind_ok by reflexivity.
  cbn [set_desc desc d_op d_mode d_reply desc_put
       gmem local_src local_dst dma_get_sscal_src dma_put_sscal_dst replyget replyput trace].
  erewrite bind_ok.
  2:{ cbv beta. cbn [dma_put_sscal_dst]. apply dma_put_ok.
      rewrite scaled_length; lia. }
  erewrite bind_ok by (apply dma_wait_ok; reflexivity).
  reflexivity.
Qed.


(** Global memory after a chunk went through the pipeline *)

Lemma scatter_out (g : Z -> elem) mem n l x :
  ~ (mem <= x < mem + n) -> scatter g mem n l x = g x.
Proof.
  intros Hx. unfold scatter.
  destruct (Z.leb_spec mem x); destruct (Z.ltb_spec x (mem + n)); simpl;
    try reflexivity; lia.
Qed.

Lemma gather_lookup (g : Z -> elem) mem n (k : nat) :
  (k < n)%nat -> gather g mem n !! k = Some (g (mem + Z.of_nat k)).
Proof.
  intros Hk. unfold gather.
  rewrite list_lookup_fmap, lookup_seq_lt by lia. reflexivity.
Qed.

Lemma scatter_in a (g : Z -> elem) sp dp (n : nat) (ls ld : list elem) k :
  0 <= k < Z.of_nat n ->
  scatter g dp (Z.of_nat n) (scaled fmul a (gather g sp n ++ drop n ls) ld n) (dp + k)
  = fmul (g (sp + k)) a.
Proof.
  intros Hk. unfold scatter.
  destruct (Z.leb_spec dp (dp + k)); [|lia].
  destruct (Z.ltb_spec (dp + k) (dp + Z.of_nat n)); [|lia]. simpl.
  replace (dp + k - dp) with k by lia.
  rewrite (scaled_lookup a _ _ _ _ (g (sp + k))); [reflexivity | lia |].
  rewrite lookup_app_l by (unfold gather; rewrite length_map, length_seq; lia).
  rewrite gather_lookup by lia. rewrite Z2Nat.id by lia. reflexivity.
Qed.

Lemma scaled_mem_step a (g0 g : Z -> elem) sp dp off (n : nat) (ls ld : list elem) :
  0 <= off ->
  scaled_mem fmul a g0 g sp dp off ->
  scaled_mem fmul a g0
    (scatter g (dp + off) (Z.of_nat n)
       (scaled fmul a (gather g (sp + off) n ++ drop n ls) ld n))
    sp dp (off + Z.of_nat n).
Proof.
  intros Hoff [Hframe Hfun]. split.
  - intros x Hx. rewrite scatter_out by lia. apply Hframe. lia.
  - intros Halias k Hk.
    destruct (Z.lt_ge_cases k off) as [Hlo|Hhi].
    + rewrite scatter_out by lia. apply Hfun; [|lia].
      intros i j Hi Hj. apply Halias; lia.
    + replace (dp + k) with (dp + off + (k - off)) by lia.
      rewrite scatter_in by lia.
      replace (sp + off + (k - off)) with (sp + k) by lia.
      rewrite Hframe; [reflexivity|].
      intros Hin.
      apply (Halias k (sp + k - dp)); lia.
Qed.

Lemma chunk_events_S sp dp k :
  chunk_events sp dp (S k)
  = chunk_events sp dp k ++ [EvGet (sp + Z.of_nat k * BUFFSIZE) BUFFSIZE;
                             EvPut (dp + Z.of_nat k * BUFFSIZE) BUFFSIZE].
Proof.
  unfold chunk_events. rewrite seq_S, flat_map_app. reflexivity.
Qed.

(** The full-chunk loop (lines 124-139): it leaves [off] at the largest
    multiple of BUFFSIZE below [lc], having scaled the first [off]
    elements of the partition. *)
Lemma main_loop_ok a fuel sp dp lc (g0 : Z -> elem) (ls ld : list elem) tr :
  0 <= lc -> lc + BUFFSIZE <= INT_MAX ->
  length ls = Z.to_nat BUFFSIZE -> length ld = Z.to_nat BUFFSIZE ->
  BUFFSIZE + lc < Z.of_nat fuel ->
  exists g ls' ld',
    main_loop fmul fuel sp dp (simd_splat a) lc
      (mk_state g0 ls ld (desc_get (BUFFSIZE * sizeof_float))
                (desc_put (BUFFSIZE * sizeof_float)) 0 0 tr)
    = Ok (lc / BUFFSIZE * BUFFSIZE,
          mk_state g ls' ld' (desc_get (BUFFSIZE * sizeof_float))
                   (desc_put (BUFFSIZE * sizeof_float)) 0 0
                   (tr ++ chunk_events sp dp (Z.to_nat (lc / BUFFSIZE)))) /\
    length ls' = Z.to_nat BUFFSIZE /\ length ld' = Z.to_nat BUFFSIZE /\
    scaled_mem fmul a g0 g sp dp (lc / BUFFSIZE * BUFFSIZE).
Proof.
  intros Hlc Hmax Hls Hld Hfuel.
  pose proof BUFFSIZE_eq as HB.
  set (Inv := fun (off : Z) (s : state) =>
    exists (k : nat) g ls' ld',
      off = Z.of_nat k * BUFFSIZE /\ off <= lc /\
      s = mk_state g ls' ld' (desc_get (BUFFSIZE * sizeof_float))
                   (desc_put (BUFFSIZE * sizeof_float)) 0 0
                   (tr ++ chunk_events sp dp k) /\
      length ls' = Z.to_nat BUFFSIZE /\ length ld' = Z.to_nat BUFFSIZE /\
      scaled_mem fmul a g0 g sp dp off).
  unfold main_loop.
  destruct (for_loop_inv Inv (fun off => Z.to_nat (lc - off))
              (fun off => isub (iadd off BUFFSIZE) 1 <? lc)
              (fun off => iadd off BUFFSIZE)
              (chunk_body fmul fuel sp dp (simd_splat a)))
    with (fuel := fuel) (i := 0)
         (s := mk_state g0 ls ld (desc_get (BUFFSIZE * sizeof_float))
                        (desc_put (BUFFSIZE * sizeof_float)) 0 0 tr)
    as (j & s' & Hrun & HI & Hc).
  - intros off s (k & g & ls' & ld' & -> & Hle & -> & Hls' & Hld' & Hmem) Hc.
    assert (Hi : isub (iadd (Z.of_nat k * BUFFSIZE) BUFFSIZE) 1
                 = Z.of_nat k * BUFFSIZE + BUFFSIZE - 1).
    { unfold isub, iadd.
      rewrite (wrap_small (_ + _)) by (rewrite INT_MIN_eq, INT_MAX_eq in *; lia).
      rewrite wrap_small by (rewrite INT_MIN_eq, INT_MAX_eq in *; lia). reflexivity. }
    rewrite Hi in Hc. apply Z.ltb_lt in Hc.
    assert (Hstep : iadd (Z.of_nat k * BUFFSIZE) BUFFSIZE = Z.of_nat (S k) * BUFFSIZE).
    { unfold iadd. rewrite wrap_small by (rewrite INT_MIN_eq, INT_MAX_eq in *; lia). lia. }
    rewrite Hstep. split; [lia|].
    eexists. split; [apply chunk_body_ok; lia|].
    exists (S k). do 3 eexists. split; [reflexivity|]. split; [lia|].
    split; [|split; [|split]].
    + rewrite chunk_events_S, <- !app_assoc. reflexivity.
    + unfold gather. rewrite length_app, length_map, length_seq, length_drop. lia.
    + rewrite scaled_length; [assumption| |lia].
      unfold gather. rewrite length_app, length_map, length_seq, length_drop. lia.
    + replace (Z.of_nat (S k) * BUFFSIZE)
        with (Z.of_nat k * BUFFSIZE + Z.of_nat (Z.to_nat BUFFSIZE)) by lia.
      replace (scatter g (dp + Z.of_nat k * BUFFSIZE) BUFFSIZE)
        with (scatter g (dp + Z.of_nat k * BUFFSIZE) (Z.of_nat (Z.to_nat BUFFSIZE)))
        by (rewrite Z2Nat.id by lia; reflexivity).
      apply scaled_mem_step; [lia | assumption].
  - lia.
  - exists 0%nat, g0, ls, ld. simpl (Z.of_nat 0 * _).
    repeat split; try assumption; try lia.
    change (chunk_events sp dp 0) with (@nil event). rewrite app_nil_r. reflexivity.
  - destruct HI as (k & g & ls' & ld' & -> & Hle & -> & Hls' & Hld' & Hmem).
    assert (Hi : isub (iadd (Z.of_nat k * BUFFSIZE) BUFFSIZE) 1
                 = Z.of_nat k * BUFFSIZE + BUFFSIZE - 1).
    { unfold isub, iadd.
      rewrite (wrap_small (_ + _)) by (rewrite INT_MIN_eq, INT_MAX_eq in *; lia).
      rewrite wrap_small by (rewrite INT_MIN_eq, INT_MAX_eq in *; lia). reflexivity. }
    rewrite Hi in Hc. apply Z.ltb_ge in Hc.
    assert (Hk : lc / BUFFSIZE = Z.of_nat k).
    { symmetry. apply (Z.div_unique lc BUFFSIZE (Z.of_nat k) (lc - Z.of_nat k * BUFFSIZE)); lia. }
    rewrite Hk, Nat2Z.id.
    exists g, ls', ld'. auto.
Qed.


Lemma local_count_small id n :
  0 <= n <= INT_MAX -> 0 <= id < SPNUM ->
  0 <= local_count_of id n <= n /\ local_count_of id n + BUFFSIZE <= INT_MAX.
Proof.
  intros Hn Hid. unfold SPNUM in Hid.
  pose proof (start_bounds id n Hn Hid) as [Hs Hb].
  pose proof (local_count_nonneg id n Hn) as Hnn.
  split; [lia|].
  rewrite local_count_closed by assumption.
  rewrite INT_MAX_eq, BUFFSIZE_eq in *.
  pose proof (Z.div_le_upper_bound n 64 33554432 ltac:(lia) ltac:(lia)).
  destruct (id <? n mod 64); lia.
Qed.

(** The configuration calls only rewrite one component of the state. *)

Lemma ldm_malloc_run b bytes (s : state) :
  ldm_malloc uninit b bytes s
  = Ok (tt, log (EvMalloc bytes)
              (set_buf b (map (uninit b) (seq 0 (Z.to_nat (bytes / sizeof_float)))) s)).
Proof. reflexivity. Qed.

Lemma ldm_free_run b bytes (s : state) :
  ldm_free b bytes s = Ok (tt, log (EvFree bytes) (set_buf b [] s)).
Proof. reflexivity. Qed.

Lemma assign_reply_run r v (s : state) :
  assign_reply r v s = Ok (tt, set_reply r v s).
Proof. reflexivity. Qed.

Lemma dma_set_op_run v o (s : state) :
  dma_set_op v o s
  = Ok (tt, set_desc v (mk_desc o (d_mode (desc v s)) (d_reply (desc v s))
                                (d_size (desc v s))) s).
Proof. reflexivity. Qed.

Lemma dma_set_mode_run v m (s : state) :
  dma_set_mode v m s
  = Ok (tt, set_desc v (mk_desc (d_op (desc v s)) m (d_reply (desc v s))
                                (d_size (desc v s))) s).
Proof. reflexivity. Qed.

Lemma dma_set_reply_run v r (s : state) :
  dma_set_reply v r s
  = Ok (tt, set_desc v (mk_desc (d_op (desc v s)) (d_mode (desc v s)) r
                                (d_size (desc v s))) s).
Proof. reflexivity. Qed.

Lemma dma_set_size_run v n (s : state) :
  dma_set_size v n s
  = Ok (tt, set_desc v (mk_desc (d_op (desc v s)) (d_mode (desc v s))
                                (d_reply (desc v s)) n) s).
Proof. reflexivity. Qed.

Ltac run_prim :=
  first [ erewrite bind_ok by apply ldm_malloc_run
        | erewrite bind_ok by apply ldm_free_run
        | erewrite bind_ok by apply assign_reply_run
        | erewrite bind_ok by apply dma_set_op_run
        | erewrite bind_ok by apply dma_set_mode_run
        | erewrite bind_ok by apply dma_set_reply_run
        | erewrite bind_ok by apply dma_set_size_run ];
  cbn [log set_buf set_reply set_desc desc d_op d_mode d_reply d_size
       gmem local_src local_dst dma_get_sscal_src dma_put_sscal_dst
       replyget replyput trace].

(* a partition shorter than one chunk never enters the full-chunk loop *)
Lemma main_loop_none fuel sp dp v lc (s : state) :
  lc < BUFFSIZE -> main_loop fmul (S fuel) sp dp v lc s = Ok (0, s).
Proof.
  intros Hlc. unfold main_loop. cbn [for_loop].
  change (isub (iadd 0 BUFFSIZE) 1) with 4095.
  rewrite BUFFSIZE_eq in Hlc.
  destruct (Z.ltb_spec 4095 lc); [lia|]. reflexivity.
Qed.

(** One worker, from any state: the transfers it logs and what it leaves
    in global memory. *)
Lemma worker_run fuel (para : sscalPara) id (s : state) :
  0 <= count para <= INT_MAX -> 0 <= id < SPNUM ->
  BUFFSIZE + local_count_of id (count para) < Z.of_nat fuel ->
  exists s',
    sw_slave_sscal_f fmul uninit fuel para id s = Ok (tt, s') /\
    trace s' = trace s ++ worker_events (src para) (dst para) (count para) id /\
    scaled_mem fmul (alpha para) (gmem s) (gmem s')
      (src para + start_of id (count para)) (dst para + start_of id (count para))
      (local_count_of id (count para)) /\
    local_src s' = [] /\ local_dst s' = [] /\
    replyget s' = 0 /\ replyput s' = 0 /\
    dma_get_sscal_src s' = desc_get (last_size (local_count_of id (count para))) /\
    dma_put_sscal_dst s' = desc_put (last_size (local_count_of id (count para))).
Proof.
  intros Hcount Hid Hfuel.
  destruct (local_count_small id (count para) Hcount Hid) as [Hlc Hlcmax].
  pose proof BUFFSIZE_eq as HB.
  destruct s as [g ls ld dg dp rg rp tr].
  unfold sw_slave_sscal_f, worker_events, transfer_events, last_size.
  set (lc := local_count_of id (count para)) in *.
  set (sp := src para + start_of id (count para)).
  set (dp' := dst para + start_of id (count para)).
  cbv zeta.
  rewrite (bind_ok _ _ _ _ _ (ldm_malloc_run Local_src _ _)).
  rewrite (bind_ok _ _ _ _ _ (ldm_malloc_run Local_dst _ _)).
  rewrite Z.div_mul by (unfold sizeof_float; lia).
  cbn [log set_buf gmem local_src local_dst dma_get_sscal_src dma_put_sscal_dst
       replyget replyput trace].
  generalize (length_map (uninit Local_src) (seq 0 (Z.to_nat BUFFSIZE))).
  generalize (length_map (uninit Local_dst) (seq 0 (Z.to_nat BUFFSIZE))).
  rewrite !length_seq.
  generalize (map (uninit Local_src) (seq 0 (Z.to_nat BUFFSIZE))).
  generalize (map (uninit Local_dst) (seq 0 (Z.to_nat BUFFSIZE))).
  intros ld0 ls0 Hld0 Hls0.
  do 10 run_prim.
  fold (desc_get (BUFFSIZE * sizeof_float)). fold (desc_put (BUFFSIZE * sizeof_float)).
  destruct (main_loop_ok (alpha para) fuel sp dp' lc g ls0 ld0
              ((tr ++ [EvMalloc (BUFFSIZE * sizeof_float)])
                 ++ [EvMalloc (BUFFSIZE * sizeof_float)]))
    as (g1 & ls1 & ld1 & Hrun & Hls1 & Hld1 & Hmem); try lia.
  erewrite bind_ok by exact Hrun.
  pose proof (Z.div_mod lc BUFFSIZE ltac:(lia)) as Hdm.
  pose proof (Z.mod_pos_bound lc BUFFSIZE ltac:(lia)) as Hmod.
  unfold tail_events. cbv zeta.
  set (off := lc / BUFFSIZE * BUFFSIZE) in *.
  assert (Hoff : 0 <= off <= lc) by (unfold off; lia).
  destruct (Z.ltb_spec off lc) as [Htail|Hnotail].
  - set (n := Z.to_nat (lc - off)).
    assert (Hn : lc - off = Z.of_nat n) by (unfold n; lia).
    erewrite bind_ok.
    2:{ apply (tail_body_ok (alpha para) fuel sp dp' lc off n); try lia.
        unfold isub. rewrite wrap_small by (rewrite INT_MIN_eq, INT_MAX_eq in *; lia).
        exact Hn. }
    rewrite (bind_ok _ _ _ _ _ (ldm_free_run Local_src _ _)).
    rewrite ldm_free_run.
    eexists. split; [reflexivity|].
    cbn [log set_buf gmem trace local_src local_dst dma_get_sscal_src dma_put_sscal_dst
         replyget replyput].
    rewrite Hn. split; [|split; [|repeat split]].
    + rewrite <- !app_assoc. reflexivity.
    + replace lc with (off + Z.of_nat n) by lia.
      apply scaled_mem_step; [lia | exact Hmem].
  - rewrite (bind_ok _ _ _ tt _ eq_refl).
    rewrite (bind_ok _ _ _ _ _ (ldm_free_run Local_src _ _)).
    rewrite ldm_free_run.
    eexists. split; [reflexivity|].
    cbn [log set_buf gmem trace local_src local_dst dma_get_sscal_src dma_put_sscal_dst
         replyget replyput].
    split; [|split; [|repeat split]].
    + rewrite <- !app_assoc. reflexivity.
    + replace lc with off by lia. exact Hmem.
Qed.

Lemma worker_ok fuel (para : sscalPara) id (s : state) :
  0 <= count para <= INT_MAX -> 0 <= id < SPNUM ->
  BUFFSIZE + local_count_of id (count para) < Z.of_nat fuel ->
  exists s',
    sw_slave_sscal_f fmul uninit fuel para id s = Ok (tt, s') /\
    trace s' = trace s ++ worker_events (src para) (dst para) (count para) id /\
    scaled_mem fmul (alpha para) (gmem s) (gmem s')
      (src para + start_of id (count para)) (dst para + start_of id (count para))
      (local_count_of id (count para)).
Proof.
  intros Hcount Hid Hfuel.
  destruct (worker_run fuel para id s Hcount Hid Hfuel) as (s' & Hrun & Htr & Hmem & _).
  exists s'. auto.
Qed.


Lemma in_range_bounds id n i :
  0 <= n <= INT_MAX -> 0 <= id < SPNUM -> in_range id n i -> 0 <= i < n.
Proof.
  intros Hn Hid [Hlo Hhi]. unfold SPNUM in Hid.
  pose proof (start_bounds id n Hn Hid). lia.
Qed.

(** The workers of [ids], one after the other in the order of the list. *)
Lemma run_workers_ok fuel (para : sscalPara) (ids : list Z) :
  0 <= count para <= INT_MAX ->
  Forall (fun id => 0 <= id < SPNUM) ids -> NoDup ids ->
  BUFFSIZE + count para < Z.of_nat fuel ->
  forall s : state,
  exists s',
    run_workers (sw_slave_sscal_f fmul uninit fuel) para ids s = Ok (tt, s') /\
    trace s' = trace s
               ++ flat_map (worker_events (src para) (dst para) (count para)) ids /\
    (forall x, (forall id, id ∈ ids -> ~ in_range id (count para) (x - dst para)) ->
               gmem s' x = gmem s x) /\
    (no_cross_alias (src para) (dst para) (count para) ->
     forall id i, id ∈ ids -> in_range id (count para) i ->
                  gmem s' (dst para + i) = fmul (gmem s (src para + i)) (alpha para)).
Proof.
  intros Hcount Hids Hnodup Hfuel.
  induction ids as [|id rest IH]; intros s.
  - exists s. simpl. unfold ret. rewrite app_nil_r.
    repeat split; try reflexivity.
    intros _ id i Hin. inversion Hin.
  - pose proof (proj1 (Forall_forall _ _) Hids) as Hall.
    inversion Hids as [|? ? Hid Hrest]; subst.
    inversion Hnodup as [|? ? Hnotin Hnodup']; subst.
    destruct (local_count_small id (count para) Hcount Hid) as [Hlc _].
    destruct (worker_ok fuel para id s Hcount Hid ltac:(lia))
      as (s1 & Hrun1 & Htr1 & Hframe1 & Hfun1).
    destruct (IH Hrest Hnodup' s1) as (s' & Hrun & Htr & Hframe & Hfun).
    exists s'. simpl. rewrite (bind_ok _ _ _ _ _ Hrun1).
    split; [exact Hrun|]. split; [|split].
    + rewrite Htr, Htr1, <- app_assoc. reflexivity.
    + intros x Hx. rewrite Hframe.
      * apply Hframe1. intros Hin.
        apply (Hx id); [left|]. unfold in_range. lia.
      * intros id' Hin'. apply Hx. right. exact Hin'.
    + intros Halias id' i Hin' Hi.
      pose proof (in_range_bounds _ _ _ Hcount (Hall _ Hin') Hi) as Hib.
      apply elem_of_cons in Hin' as [->|Hin'].
      * rewrite Hframe.
        -- replace (dst para + i)
             with (dst para + start_of id (count para) + (i - start_of id (count para)))
             by lia.
           rewrite Hfun1.
           ++ f_equal. f_equal. lia.
           ++ intros a b Ha Hb Hab.
              pose proof (start_bounds id (count para) Hcount Hid).
              specialize (Halias (start_of id (count para) + a)
                                 (start_of id (count para) + b)).
              unfold SPNUM in Hid. lia.
           ++ unfold in_range in Hi. lia.
        -- intros id' Hin' Hi'.
           replace (dst para + i - dst para) with i in Hi' by lia.
           assert (id' = id).
           { unfold SPNUM in *.
             apply (in_range_unique (count para) id' id i); try assumption.
             apply Hall. right. exact Hin'. }
           subst id'. contradiction.
      * rewrite (Hfun Halias id' i Hin' Hi). f_equal.
        apply Hframe1. intros Hin.
        assert (Hj : in_range id (count para) (src para + i - dst para))
          by (unfold in_range; lia).
        pose proof (in_range_bounds _ _ _ Hcount Hid Hj) as Hjb.
        destruct (Z.eq_dec i (src para + i - dst para)) as [Heq|Hne].
        -- rewrite <- Heq in Hj.
           assert (id' = id).
           { unfold SPNUM in *.
             apply (in_range_unique (count para) id' id i); try assumption.
             apply Hall. right. exact Hin'. }
           subst id'. contradiction.
        -- apply (Halias i (src para + i - dst para)); try assumption. lia.
Qed.

(** Every element index belongs to one of the 64 workers. *)
Lemma worker_of_index n i :
  0 <= n <= INT_MAX -> 0 <= i < n ->
  exists id, 0 <= id < SPNUM /\ in_range id n i.
Proof.
  intros Hn Hi.
  destruct (find_worker n i Hn Hi 64 ltac:(lia)) as (id & Hid & Hin).
  - change (Z.of_nat 64) with 64. rewrite start_last by assumption. lia.
  - exists id. split; [exact Hid | exact Hin].
Qed.

(** The whole population, in any order of execution. *)
Lemma kernel_ok fuel (para : sscalPara) (ids : list Z) :
  0 <= count para <= INT_MAX ->
  ids ≡ₚ seqZ 0 SPNUM ->
  BUFFSIZE + count para < Z.of_nat fuel ->
  forall s : state,
  exists s',
    run_workers (sw_slave_sscal_f fmul uninit fuel) para ids s = Ok (tt, s') /\
    (forall x, ~ (dst para <= x < dst para + count para) -> gmem s' x = gmem s x) /\
    (no_cross_alias (src para) (dst para) (count para) ->
     forall i, 0 <= i < count para ->
               gmem s' (dst para + i) = fmul (gmem s (src para + i)) (alpha para)).
Proof.
  intros Hcount Hperm Hfuel s.
  assert (Hmem : forall id, id ∈ ids <-> 0 <= id < SPNUM).
  { intros id. rewrite Hperm, elem_of_seqZ. lia. }
  assert (Hids : Forall (fun id => 0 <= id < SPNUM) ids).
  { apply Forall_forall. intros id Hin. apply Hmem, Hin. }
  assert (Hnodup : NoDup ids) by (rewrite Hperm; apply NoDup_seqZ).
  destruct (run_workers_ok fuel para ids Hcount Hids Hnodup Hfuel s)
    as (s' & Hrun & _ & Hframe & Hfun).
  exists s'. split; [exact Hrun|]. split.
  - intros x Hx. apply Hframe. intros id Hin Hr.
    apply Hmem in Hin.
    pose proof (in_range_bounds _ _ _ Hcount Hin Hr). lia.
  - intros Halias i Hi.
    destruct (worker_of_index (count para) i Hcount Hi) as (id & Hid & Hr).
    apply (Hfun Halias id i); [apply Hmem, Hid | exact Hr].
Qed.

End KernelProofs.

Ltac run_config :=
  first [ erewrite bind_ok by apply assign_reply_run
        | erewrite bind_ok by apply dma_set_op_run
        | erewrite bind_ok by apply dma_set_mode_run
        | erewrite bind_ok by apply dma_set_reply_run
        | erewrite bind_ok by apply dma_set_size_run ];
  cbn [log set_buf set_reply set_desc desc d_op d_mode d_reply d_size
       gmem local_src local_dst dma_get_sscal_src dma_put_sscal_dst
       replyget replyput trace].

(** * The properties of the specification *)

Lemma f32_mul_comm (x y : float32) : f32_mul x y = f32_mul y x.
Proof.
  unfold f32_mul, SFmul.
  destruct x as [sx|sx| |sx mx ex], y as [sy|sy| |sy my ey];
    try reflexivity; try (rewrite (xorb_comm sx sy); reflexivity).
  rewrite (xorb_comm sx sy), (Pos.mul_comm mx my), (Z.add_comm ex ey).
  reflexivity.
Qed.

Lemma no_cross_alias_apart sp dp n :
  n <= Z.abs (sp - dp) -> no_cross_alias sp dp n.
Proof. intros H i j Hi Hj _. lia. Qed.

Lemma no_cross_alias_same p n : no_cross_alias p p n.
Proof. intros i j _ _ Hij. lia. Qed.

(** C2. For every element count N >= 0 (a C int) and every worker index
    id in [0,SPNUM), the partitioner of the source computes
    local_count = N/P + (1 if id < N mod P else 0) and
    start_offset = id*(N/P) + min(id, N mod P) for P = SPNUM; both are
    pure functions of (id, N), so computing them has no side effect; and
    local_count is zero exactly when N < P and id >= N. *)
Theorem partition_contract (N id : Z) :
  0 <= N <= INT_MAX -> 0 <= id < SPNUM ->
  local_count_of id N = spec_local_count SPNUM N id /\
  start_of id N = spec_start_offset SPNUM N id /\
  (local_count_of id N = 0 <-> N < SPNUM /\ N <= id).
Proof.
  intros HN Hid. unfold spec_local_count, spec_start_offset, SPNUM in *.
  rewrite local_count_closed, start_closed by lia.
  split; [reflexivity|]. split; [reflexivity|].
  pose proof (Z.div_mod N 64 ltac:(lia)) as Hdm.
  pose proof (Z.mod_pos_bound N 64 ltac:(lia)) as Hm.
  assert (0 <= N / 64) by (apply Z.div_pos; lia).
  destruct (Z.ltb_spec id (N mod 64)); split; intros; lia.
Qed.

Lemma partition_contract_witness :
  (0 <= 10 <= INT_MAX) /\ (0 <= 3 < SPNUM) /\
  local_count_of 3 10 = spec_local_count SPNUM 10 3 /\
  start_of 3 10 = spec_start_offset SPNUM 10 3 /\
  (local_count_of 3 10 = 0 <-> 10 < SPNUM /\ 10 <= 3).
Proof.
  assert (H1 : 0 <= 10 <= INT_MAX) by (unfold INT_MAX; lia).
  assert (H2 : 0 <= 3 < SPNUM) by (unfold SPNUM; lia).
  split; [exact H1|]. split; [exact H2|].
  exact (partition_contract 10 3 H1 H2).
Defined.

(** C3. For every N >= 0 the half-open ranges
    [start_offset(id), start_offset(id)+local_count(id)) of the workers
    id in [0,SPNUM) are pairwise disjoint and their union is exactly
    [0,N); the N mod SPNUM remainder elements go one each to the
    lowest-indexed workers. *)
Theorem partition_cover (N : Z) :
  0 <= N <= INT_MAX ->
  (forall i, 0 <= i < N -> exists id, 0 <= id < SPNUM /\ in_range id N i) /\
  (forall id i, 0 <= id < SPNUM -> in_range id N i -> 0 <= i < N) /\
  (forall id1 id2 i, 0 <= id1 < SPNUM -> 0 <= id2 < SPNUM ->
                     in_range id1 N i -> in_range id2 N i -> id1 = id2) /\
  (forall id, 0 <= id < N mod SPNUM -> local_count_of id N = N / SPNUM + 1) /\
  (forall id, N mod SPNUM <= id < SPNUM -> local_count_of id N = N / SPNUM).
Proof.
  intros HN. split; [|split; [|split; [|split]]].
  - intros i Hi. apply worker_of_index; assumption.
  - intros id i Hid Hr. apply (in_range_bounds id N i HN Hid Hr).
  - intros id1 id2 i H1 H2. apply in_range_unique; assumption.
  - intros id Hid. rewrite local_count_closed by assumption. unfold SPNUM in *.
    destruct (Z.ltb_spec id (N mod 64)); lia.
  - intros id Hid. rewrite local_count_closed by assumption. unfold SPNUM in *.
    destruct (Z.ltb_spec id (N mod 64)); lia.
Qed.

Lemma partition_cover_witness :
  (0 <= 10 <= INT_MAX) /\
  (forall i, 0 <= i < 10 -> exists id, 0 <= id < SPNUM /\ in_range id 10 i) /\
  (forall id i, 0 <= id < SPNUM -> in_range id 10 i -> 0 <= i < 10) /\
  (forall id1 id2 i, 0 <= id1 < SPNUM -> 0 <= id2 < SPNUM ->
                     in_range id1 10 i -> in_range id2 10 i -> id1 = id2) /\
  (forall id, 0 <= id < 10 mod SPNUM -> local_count_of id 10 = 10 / SPNUM + 1) /\
  (forall id, 10 mod SPNUM <= id < SPNUM -> local_count_of id 10 = 10 / SPNUM).
Proof.
  assert (H1 : 0 <= 10 <= INT_MAX) by (unfold INT_MAX; lia).
  split; [exact H1|]. exact (partition_cover 10 H1).
Defined.

(** C1. For every finite scalar alpha, every element count N >= 0 and
    every input vector x of length N (held at [src], with the destination
    y at [dst] either the same vector or apart from it), running
    sw_slave_sscal_f on every worker id in [0,64), in any order, ends
    without fault and leaves y[i] equal to the single binary32 product
    alpha * x[i] for every i in [0,N).  The source multiplies x[i] by
    alpha in that operand order; the binary32 product is commutative. *)
Theorem scale_correct (uninit : ldm_buf -> nat -> float32) (fuel : nat)
        (para : @sscalPara float32) (ids : list Z) (s : @state float32) :
  f32_finite (alpha para) = true ->
  0 <= count para <= INT_MAX ->
  ids ≡ₚ seqZ 0 SPNUM ->
  no_cross_alias (src para) (dst para) (count para) ->
  BUFFSIZE + count para < Z.of_nat fuel ->
  exists s',
    run_workers (sw_slave_sscal_f f32_mul uninit fuel) para ids s = Ok (tt, s') /\
    forall i, 0 <= i < count para ->
              gmem s' (dst para + i) = f32_mul (alpha para) (gmem s (src para + i)).
Proof.
  intros _ Hcount Hperm Halias Hfuel.
  destruct (kernel_ok f32_mul uninit fuel para ids Hcount Hperm Hfuel s)
    as (s' & Hrun & _ & Hfun).
  exists s'. split; [exact Hrun|].
  intros i Hi. rewrite f32_mul_comm. apply Hfun; assumption.
Qed.

Lemma fuel_5000 (n : Z) : n <= 100 -> BUFFSIZE + n < Z.of_nat 5000.
Proof. intros H. rewrite BUFFSIZE_eq. lia. Defined.

Lemma scale_correct_witness :
  f32_finite (alpha scenario_para) = true /\
  0 <= count scenario_para <= INT_MAX /\
  seqZ 0 SPNUM ≡ₚ seqZ 0 SPNUM /\
  no_cross_alias (src scenario_para) (dst scenario_para) (count scenario_para) /\
  BUFFSIZE + count scenario_para < Z.of_nat 5000 /\
  exists s',
    run_workers (sw_slave_sscal_f f32_mul zero_ldm32 5000) scenario_para
                (seqZ 0 SPNUM) ramp_state32 = Ok (tt, s') /\
    forall i, 0 <= i < count scenario_para ->
              gmem s' (dst scenario_para + i)
              = f32_mul (alpha scenario_para) (gmem ramp_state32 (src scenario_para + i)).
Proof.
  assert (H1 : f32_finite (alpha scenario_para) = true) by reflexivity.
  assert (H2 : 0 <= count scenario_para <= INT_MAX) by (unfold INT_MAX; simpl; lia).
  assert (H3 : seqZ 0 SPNUM ≡ₚ seqZ 0 SPNUM) by reflexivity.
  assert (H4 : no_cross_alias (src scenario_para) (dst scenario_para)
                              (count scenario_para))
    by (apply no_cross_alias_apart; simpl; lia).
  assert (H5 : BUFFSIZE + count scenario_para < Z.of_nat 5000)
    by (apply fuel_5000; simpl; lia).
  do 5 (split; [assumption|]).
  exact (scale_correct zero_ldm32 5000 scenario_para (seqZ 0 SPNUM) ramp_state32
                       H1 H2 H3 H4 H5).
Defined.

(** C4 as stated fails: on the ten-element double vector x = [0..9] with
    alpha = 2.0, worker 1 of sw_slave_sscal_d returns with every word of
    memory as it was, so destination[1] still holds its old value 101.0
    and not alpha * source[1] = 2.0. *)
Lemma sscal_d_not_scaling :
  local_count_of 1 (count scenario_para64) = 1 /\
  start_of 1 (count scenario_para64) = 1 /\
  exists s',
    sw_slave_sscal_d scenario_para64 1 ramp_state64 = Ok (tt, s') /\
    gmem s' (dst scenario_para64 + 1)
    <> f64_mul (alpha scenario_para64) (gmem ramp_state64 (src scenario_para64 + 1)).
Proof.
  split; [reflexivity|]. split; [reflexivity|].
  exists ramp_state64. split; [reflexivity|].
  vm_compute. discriminate.
Qed.

(** C4, amended. The body of the double-precision entry point
    sw_slave_sscal_d is commented out: for every descriptor, worker id and
    state it returns at once, and running it on any list of workers
    acquires no buffer, issues no transfer and leaves global memory, the
    event log and the rest of the state unchanged. *)
Theorem sscal_d_noop {elem : Type} (para : @sscalPara elem) (ids : list Z)
        (s : @state elem) :
  (forall id, sw_slave_sscal_d para id s = Ok (tt, s)) /\
  run_workers sw_slave_sscal_d para ids s = Ok (tt, s).
Proof.
  split; [reflexivity|].
  induction ids as [|id rest IH]; [reflexivity|].
  cbn [run_workers]. unfold bind. cbn [sw_slave_sscal_d ret]. exact IH.
Qed.

Section GenericClaims.

Context {elem : Type}.
Variable fmul : elem -> elem -> elem.
Variable uninit : ldm_buf -> nat -> elem.

Lemma chunk_events_within src dst count id (k : nat) :
  Z.of_nat k * BUFFSIZE <= local_count_of id count ->
  Forall (event_within src dst count id)
         (chunk_events (src + start_of id count) (dst + start_of id count) k).
Proof.
  pose proof BUFFSIZE_eq as HB.
  induction k as [|k IH]; intros Hk.
  - constructor.
  - rewrite chunk_events_S. apply Forall_app. split; [apply IH; lia|].
    repeat constructor; lia.
Qed.

Lemma worker_events_within src dst count id :
  0 <= count <= INT_MAX -> 0 <= id < SPNUM ->
  Forall (event_within src dst count id) (worker_events src dst count id).
Proof.
  intros Hcount Hid.
  destruct (local_count_small id count Hcount Hid) as [Hlc _].
  pose proof BUFFSIZE_eq as HB.
  pose proof (Z.div_mod (local_count_of id count) BUFFSIZE ltac:(lia)) as Hdm.
  pose proof (Z.mod_pos_bound (local_count_of id count) BUFFSIZE ltac:(lia)) as Hmod.
  assert (0 <= local_count_of id count / BUFFSIZE) by (apply Z.div_pos; lia).
  unfold worker_events, transfer_events, tail_events.
  repeat (apply Forall_app; split).
  - repeat constructor.
  - apply chunk_events_within. lia.
  - destruct (Z.ltb_spec (local_count_of id count / BUFFSIZE * BUFFSIZE)
                         (local_count_of id count)).
    + repeat constructor; lia.
    + constructor.
  - repeat constructor.
Qed.

(** C5. For every worker id and every input, each global-memory write
    the worker issues targets only destination indices in its own range
    [start_offset, start_offset+local_count), each read targets only
    source indices in that same range, and every word of global memory
    outside the worker's destination range is left unchanged. *)
Theorem worker_stays_in_range (fuel : nat) (para : @sscalPara elem) (id : Z)
        (s : @state elem) :
  0 <= count para <= INT_MAX -> 0 <= id < SPNUM ->
  BUFFSIZE + count para < Z.of_nat fuel ->
  exists s' evs,
    sw_slave_sscal_f fmul uninit fuel para id s = Ok (tt, s') /\
    trace s' = trace s ++ evs /\
    Forall (event_within (src para) (dst para) (count para) id) evs /\
    forall x, ~ (dst para + start_of id (count para) <= x
                 < dst para + start_of id (count para)
                   + local_count_of id (count para)) ->
              gmem s' x = gmem s x.
Proof.
  intros Hcount Hid Hfuel.
  destruct (local_count_small id (count para) Hcount Hid) as [Hlc _].
  destruct (worker_ok fmul uninit fuel para id s Hcount Hid ltac:(lia))
    as (s' & Hrun & Htr & Hframe & _).
  exists s', (worker_events (src para) (dst para) (count para) id).
  split; [exact Hrun|]. split; [exact Htr|]. split; [|exact Hframe].
  apply worker_events_within; assumption.
Qed.

(** C6. A worker whose computed local_count is 0 (every worker when
    N = 0) issues no in-transfer and no out-transfer, leaves every word of
    global memory unchanged, and returns without fault after acquiring and
    releasing its two staging buffers. *)
Theorem zero_length_worker (fuel : nat) (para : @sscalPara elem) (id : Z)
        (s : @state elem) :
  0 <= count para <= INT_MAX -> 0 <= id < SPNUM ->
  local_count_of id (count para) = 0 ->
  (0 < fuel)%nat ->
  local_count_of id 0 = 0 /\
  exists s',
    sw_slave_sscal_f fmul uninit fuel para id s = Ok (tt, s') /\
    trace s' = trace s ++ [EvMalloc (BUFFSIZE * sizeof_float);
                           EvMalloc (BUFFSIZE * sizeof_float);
                           EvFree (BUFFSIZE * sizeof_float);
                           EvFree (BUFFSIZE * sizeof_float)] /\
    forall x, gmem s' x = gmem s x.
Proof.
  intros Hcount Hid Hzero Hfuel.
  split.
  { rewrite local_count_closed by (unfold INT_MAX; lia).
    unfold SPNUM in Hid. change (0 mod 64) with 0. change (0 / 64) with 0.
    destruct (Z.ltb_spec id 0); lia. }
  destruct s as [g ls ld dg dp rg rp tr].
  destruct fuel as [|fuel]; [lia|].
  unfold sw_slave_sscal_f. cbv zeta. rewrite Hzero.
  rewrite (bind_ok _ _ _ _ _ (ldm_malloc_run uninit Local_src _ _)).
  rewrite (bind_ok _ _ _ _ _ (ldm_malloc_run uninit Local_dst _ _)).
  cbn [log set_buf gmem local_src local_dst dma_get_sscal_src dma_put_sscal_dst
       replyget replyput trace].
  generalize (map (uninit Local_src)
                  (seq 0 (Z.to_nat (BUFFSIZE * sizeof_float / sizeof_float)))).
  generalize (map (uninit Local_dst)
                  (seq 0 (Z.to_nat (BUFFSIZE * sizeof_float / sizeof_float)))).
  intros ld0 ls0.
  do 10 run_config.
  rewrite (bind_ok _ _ _ _ _ (main_loop_none fmul fuel _ _ _ 0 _ ltac:(rewrite BUFFSIZE_eq; lia))).
  change (0 <? 0) with false. cbv iota.
  rewrite (bind_ok _ _ _ tt _ eq_refl).
  rewrite (bind_ok _ _ _ _ _ (ldm_free_run Local_src _ _)).
  rewrite ldm_free_run.
  cbn [log set_buf gmem local_src local_dst dma_get_sscal_src dma_put_sscal_dst
       replyget replyput trace].
  eexists. split; [reflexivity|].
  cbn [log set_buf gmem local_src local_dst dma_get_sscal_src dma_put_sscal_dst
       replyget replyput trace].
  split; [|reflexivity].
  rewrite <- !app_assoc. reflexivity.
Qed.



(** Fuel only bounds the iteration count of the embedding: a run with less
    fuel either gives up or agrees with the run with more fuel. *)

Lemma approx_refl {A} (r : result A) : approx r r.
Proof. right. reflexivity. Qed.

Lemma bind_approx {A B} (m1 m2 : @M elem A) (k1 k2 : A -> @M elem B) s :
  approx (m1 s) (m2 s) ->
  (forall a s', approx (k1 a s') (k2 a s')) ->
  approx (bind m1 k1 s) (bind m2 k2 s).
Proof.
  intros [H|H] Hk; unfold bind; rewrite H.
  - left. reflexivity.
  - destruct (m2 s) as [[a s']|f]; [apply Hk | apply approx_refl].
Qed.

Lemma for_loop_approx cond step (body1 body2 : Z -> @M elem unit) :
  (forall i s, approx (body1 i s) (body2 i s)) ->
  forall f1 f2 : nat, (f1 <= f2)%nat ->
  forall i s, approx (for_loop f1 cond step body1 i s)
                     (for_loop f2 cond step body2 i s).
Proof.
  intros Hbody. induction f1 as [|f1 IH]; intros f2 Hle i s.
  - left. reflexivity.
  - destruct f2 as [|f2]; [lia|]. simpl.
    destruct (cond i); [|apply approx_refl].
    apply bind_approx; [apply Hbody|].
    intros _ s'. apply IH. lia.
Qed.

Ltac approx_seq :=
  repeat (apply bind_approx; [apply approx_refl | intros _ ?]).

Lemma chunk_body_approx (f1 f2 : nat) sp dp v off (s : @state elem) :
  (f1 <= f2)%nat ->
  approx (chunk_body fmul f1 sp dp v off s) (chunk_body fmul f2 sp dp v off s).
Proof.
  intros Hle. unfold chunk_body. approx_seq.
  apply bind_approx; [|intros; apply approx_refl].
  apply for_loop_approx; [intros; apply approx_refl | exact Hle].
Qed.

Lemma tail_body_approx (f1 f2 : nat) sp dp a v lc off (s : @state elem) :
  (f1 <= f2)%nat ->
  approx (tail_body fmul f1 sp dp a v lc off s) (tail_body fmul f2 sp dp a v lc off s).
Proof.
  intros Hle. unfold tail_body. approx_seq.
  apply bind_approx.
  { apply for_loop_approx; [intros; apply approx_refl | exact Hle]. }
  intros. apply bind_approx; [|intros; apply approx_refl].
  apply for_loop_approx; [intros; apply approx_refl | exact Hle].
Qed.

Lemma kernel_approx (f1 f2 : nat) (para : @sscalPara elem) id (s : @state elem) :
  (f1 <= f2)%nat ->
  approx (sw_slave_sscal_f fmul uninit f1 para id s)
         (sw_slave_sscal_f fmul uninit f2 para id s).
Proof.
  intros Hle. unfold sw_slave_sscal_f. cbv zeta. approx_seq.
  apply bind_approx.
  { unfold main_loop. apply for_loop_approx; [|exact Hle].
    intros. apply chunk_body_approx. exact Hle. }
  intros off ?. apply bind_approx; [|intros; apply approx_refl].
  destruct (off <? _); [apply tail_body_approx; exact Hle | apply approx_refl].
Qed.

(** C10. In sw_slave_sscal_f, for every count >= 0 and every worker id
    in [0,64), every index used to read local_src or write local_dst lies
    in [0, BUFFSIZE), BUFFSIZE = 4096.  The staging buffers are allocated
    with BUFFSIZE elements and a checked access succeeds exactly on the
    indices of its buffer; the run never takes the error branch (whatever
    the iteration budget, it ends normally or by exhausting the budget,
    and with a sufficient budget it ends normally); the full-chunk loop
    leaves [off] at the largest multiple of BUFFSIZE that is
    <= local_count; and when the tail branch is taken the remainder
    satisfies 0 < local_count - off < BUFFSIZE. *)
Theorem ldm_access_in_bounds (fuel : nat) (para : @sscalPara elem) (id : Z)
        (s : @state elem) :
  0 <= count para <= INT_MAX -> 0 <= id < SPNUM ->
  let lc := local_count_of id (count para) in
  let off := lc / BUFFSIZE * BUFFSIZE in
  BUFFSIZE = 4096 /\
  (forall b (s0 : @state elem),
      exists s1, ldm_malloc uninit b (BUFFSIZE * sizeof_float) s0 = Ok (tt, s1) /\
                 Z.of_nat (length (buf b s1)) = BUFFSIZE) /\
  (forall b i (s0 : @state elem),
      (exists v, ldm_load b i s0 = Ok (v, s0))
      <-> 0 <= i < Z.of_nat (length (buf b s0))) /\
  (forall b i v (s0 : @state elem),
      (exists s1, ldm_store b i v s0 = Ok (tt, s1))
      <-> 0 <= i < Z.of_nat (length (buf b s0))) /\
  (sw_slave_sscal_f fmul uninit fuel para id s = Fault OutOfFuel \/
   (exists s', sw_slave_sscal_f fmul uninit fuel para id s = Ok (tt, s'))) /\
  (BUFFSIZE + lc < Z.of_nat fuel ->
   exists s', sw_slave_sscal_f fmul uninit fuel para id s = Ok (tt, s')) /\
  (forall (g : Z -> elem) (ls ld : list elem) tr,
      length ls = Z.to_nat BUFFSIZE -> length ld = Z.to_nat BUFFSIZE ->
      BUFFSIZE + lc < Z.of_nat fuel ->
      exists s1,
        main_loop fmul fuel (src para + start_of id (count para))
                  (dst para + start_of id (count para)) (simd_splat (alpha para)) lc
                  (mk_state g ls ld (desc_get (BUFFSIZE * sizeof_float))
                            (desc_put (BUFFSIZE * sizeof_float)) 0 0 tr)
        = Ok (off, s1)) /\
  ((off <? lc) = true -> 0 < isub lc off < BUFFSIZE).
Proof.
  intros Hcount Hid lc off.
  destruct (local_count_small id (count para) Hcount Hid) as [Hlc Hmax].
  fold lc in Hlc, Hmax.
  pose proof BUFFSIZE_eq as HB.
  pose proof (Z.div_mod lc BUFFSIZE ltac:(lia)) as Hdm.
  pose proof (Z.mod_pos_bound lc BUFFSIZE ltac:(lia)) as Hmod.
  assert (Hok : forall f : nat, BUFFSIZE + lc < Z.of_nat f ->
                exists s', sw_slave_sscal_f fmul uninit f para id s = Ok (tt, s')).
  { intros f Hf.
    destruct (worker_ok fmul uninit f para id s Hcount Hid Hf) as (s' & Hrun & _).
    exists s'. exact Hrun. }
  split; [exact HB|].
  split; [intros b s0; apply ldm_malloc_length|].
  split; [intros b i s0; apply ldm_load_iff|].
  split; [intros b i v s0; apply ldm_store_iff|].
  split; [|split; [exact (Hok fuel)|split]].
  - destruct (Hok (fuel + Z.to_nat (BUFFSIZE + lc + 1))%nat ltac:(lia)) as (s' & Hrun).
    destruct (kernel_approx fuel (fuel + Z.to_nat (BUFFSIZE + lc + 1)) para id s
                ltac:(lia)) as [Hout|Hsame].
    + left. exact Hout.
    + right. exists s'. rewrite Hsame. exact Hrun.
  - intros g ls ld tr Hls Hld Hfuel.
    destruct (main_loop_ok fmul (alpha para) fuel
                (src para + start_of id (count para))
                (dst para + start_of id (count para)) lc g ls ld tr)
      as (g1 & ls1 & ld1 & Hrun & _); try lia.
    eexists. exact Hrun.
  - intros Htail. apply Z.ltb_lt in Htail.
    unfold isub. rewrite wrap_small by (rewrite INT_MIN_eq, INT_MAX_eq in *; lia).
    unfold off in *. lia.
Qed.

(** C7. For every N that is an exact multiple of BUFFSIZE and every
    input, the destination contents for the indices [0,N) after running
    the kernel with count N are identical to the first N destination
    elements after running it, on the same memory, with count N+1. *)
Theorem chunk_boundary_equiv (fuel : nat) (sp dp : Z) (a : elem) (N : Z)
        (ids1 ids2 : list Z) (s : @state elem) :
  0 <= N -> N + 1 <= INT_MAX -> N mod BUFFSIZE = 0 ->
  ids1 ≡ₚ seqZ 0 SPNUM -> ids2 ≡ₚ seqZ 0 SPNUM ->
  no_cross_alias sp dp (N + 1) ->
  BUFFSIZE + N + 1 < Z.of_nat fuel ->
  exists s1 s2,
    run_workers (sw_slave_sscal_f fmul uninit fuel) (mk_para sp dp a N) ids1 s
    = Ok (tt, s1) /\
    run_workers (sw_slave_sscal_f fmul uninit fuel) (mk_para sp dp a (N + 1)) ids2 s
    = Ok (tt, s2) /\
    forall i, 0 <= i < N -> gmem s1 (dp + i) = gmem s2 (dp + i).
Proof.
  intros HN Hmax _ Hp1 Hp2 Halias Hfuel.
  destruct (kernel_ok fmul uninit fuel (mk_para sp dp a N) ids1) with (s := s)
    as (s1 & Hrun1 & _ & Hfun1); cbn [count]; try lia; try assumption.
  destruct (kernel_ok fmul uninit fuel (mk_para sp dp a (N + 1)) ids2) with (s := s)
    as (s2 & Hrun2 & _ & Hfun2); cbn [count]; try lia; try assumption.
  exists s1, s2. split; [exact Hrun1|]. split; [exact Hrun2|].
  intros i Hi. cbn [src dst alpha count] in *.
  rewrite Hfun1, Hfun2; try lia; try assumption; [reflexivity|].
  intros x y Hx Hy. apply Halias; lia.
Qed.

(** C8, amended. Invoking the kernel twice in succession with the same
    operation descriptor, the second run starting from the state the first
    one left (descriptors, reply words, staging buffers included), yields
    the same contents of global memory after the second run as after the
    first, provided the destination vector does not overlap the source
    vector.  The kernel retains no hidden state: a run from any other
    state whose source vector holds the same contents leaves the same
    destination contents. *)
Theorem rerun_same_when_apart (fuel : nat) (para : @sscalPara elem)
        (ids1 ids2 : list Z) (s : @state elem) :
  0 <= count para <= INT_MAX ->
  ids1 ≡ₚ seqZ 0 SPNUM -> ids2 ≡ₚ seqZ 0 SPNUM ->
  count para <= Z.abs (src para - dst para) ->
  BUFFSIZE + count para < Z.of_nat fuel ->
  exists s1 s2,
    run_workers (sw_slave_sscal_f fmul uninit fuel) para ids1 s = Ok (tt, s1) /\
    run_workers (sw_slave_sscal_f fmul uninit fuel) para ids2 s1 = Ok (tt, s2) /\
    (forall x, gmem s2 x = gmem s1 x) /\
    (forall (t : @state elem) (ids3 : list Z),
        ids3 ≡ₚ seqZ 0 SPNUM ->
        (forall i, 0 <= i < count para ->
                   gmem t (src para + i) = gmem s (src para + i)) ->
        exists t1,
          run_workers (sw_slave_sscal_f fmul uninit fuel) para ids3 t = Ok (tt, t1) /\
          forall i, 0 <= i < count para ->
                    gmem t1 (dst para + i) = gmem s1 (dst para + i)).
Proof.
  intros Hcount Hp1 Hp2 Hapart Hfuel.
  pose proof (no_cross_alias_apart _ _ _ Hapart) as Halias.
  destruct (kernel_ok fmul uninit fuel para ids1 Hcount Hp1 Hfuel s)
    as (s1 & Hrun1 & Hframe1 & Hfun1).
  destruct (kernel_ok fmul uninit fuel para ids2 Hcount Hp2 Hfuel s1)
    as (s2 & Hrun2 & Hframe2 & Hfun2).
  exists s1, s2. split; [exact Hrun1|]. split; [exact Hrun2|]. split.
  - intros x.
    destruct (Z_lt_ge_dec x (dst para)) as [Hlo|Hhi];
      [apply Hframe2; lia|].
    destruct (Z_lt_ge_dec x (dst para + count para)) as [Hin|Hout];
      [|apply Hframe2; lia].
    replace x with (dst para + (x - dst para)) by lia.
    rewrite (Hfun2 Halias), (Hfun1 Halias) by lia.
    f_equal. apply Hframe1. lia.
  - intros t ids3 Hp3 Hsame.
    destruct (kernel_ok fmul uninit fuel para ids3 Hcount Hp3 Hfuel t)
      as (t1 & Hrun3 & _ & Hfun3).
    exists t1. split; [exact Hrun3|].
    intros i Hi. rewrite (Hfun3 Halias), (Hfun1 Halias), Hsame by lia. reflexivity.
Qed.

End GenericClaims.


(** ** The statements exercised on concrete machines *)

Lemma fuel_10000 (n : Z) : n <= 5000 -> BUFFSIZE + n < Z.of_nat (Z.to_nat 10000).
Proof. intros H. rewrite BUFFSIZE_eq, Z2Nat.id; lia. Defined.

Lemma count_ok (n : Z) : 0 <= n <= 5000 -> 0 <= n <= INT_MAX.
Proof. intros H. rewrite INT_MAX_eq. lia. Defined.

Lemma worker_stays_in_range_witness :
  0 <= count scenario_para <= INT_MAX /\ 0 <= 3 < SPNUM /\
  BUFFSIZE + count scenario_para < Z.of_nat 5000 /\
  exists s' evs,
    sw_slave_sscal_f f32_mul zero_ldm32 5000 scenario_para 3 ramp_state32 = Ok (tt, s') /\
    trace s' = trace ramp_state32 ++ evs /\
    Forall (event_within (src scenario_para) (dst scenario_para)
                         (count scenario_para) 3) evs /\
    forall x, ~ (dst scenario_para + start_of 3 (count scenario_para) <= x
                 < dst scenario_para + start_of 3 (count scenario_para)
                   + local_count_of 3 (count scenario_para)) ->
              gmem s' x = gmem ramp_state32 x.
Proof.
  assert (H1 : 0 <= count scenario_para <= INT_MAX) by (apply count_ok; simpl; lia).
  assert (H2 : 0 <= 3 < SPNUM) by (unfold SPNUM; lia).
  assert (H3 : BUFFSIZE + count scenario_para < Z.of_nat 5000)
    by (apply fuel_5000; simpl; lia).
  do 3 (split; [assumption|]).
  exact (worker_stays_in_range f32_mul zero_ldm32 5000 scenario_para 3 ramp_state32
                               H1 H2 H3).
Defined.

Lemma zero_length_worker_witness :
  0 <= count scenario_para <= INT_MAX /\ 0 <= 12 < SPNUM /\
  local_count_of 12 (count scenario_para) = 0 /\ (0 < 1)%nat /\
  local_count_of 12 0 = 0 /\
  exists s',
    sw_slave_sscal_f f32_mul zero_ldm32 1 scenario_para 12 ramp_state32 = Ok (tt, s') /\
    trace s' = trace ramp_state32 ++ [EvMalloc (BUFFSIZE * sizeof_float);
                                      EvMalloc (BUFFSIZE * sizeof_float);
                                      EvFree (BUFFSIZE * sizeof_float);
                                      EvFree (BUFFSIZE * sizeof_float)] /\
    forall x, gmem s' x = gmem ramp_state32 x.
Proof.
  assert (H1 : 0 <= count scenario_para <= INT_MAX) by (apply count_ok; simpl; lia).
  assert (H2 : 0 <= 12 < SPNUM) by (unfold SPNUM; lia).
  assert (H3 : local_count_of 12 (count scenario_para) = 0) by reflexivity.
  assert (H4 : (0 < 1)%nat) by lia.
  do 4 (split; [assumption|]).
  exact (zero_length_worker f32_mul zero_ldm32 1 scenario_para 12 ramp_state32
                            H1 H2 H3 H4).
Defined.

Lemma ldm_access_in_bounds_witness :
  0 <= count scenario_para <= INT_MAX /\ 0 <= 3 < SPNUM /\
  exists s',
    sw_slave_sscal_f f32_mul zero_ldm32 5000 scenario_para 3 ramp_state32 = Ok (tt, s').
Proof.
  assert (H1 : 0 <= count scenario_para <= INT_MAX) by (apply count_ok; simpl; lia).
  assert (H2 : 0 <= 3 < SPNUM) by (unfold SPNUM; lia).
  do 2 (split; [assumption|]).
  refine (proj1 (proj2 (proj2 (proj2 (proj2 (proj2
            (ldm_access_in_bounds f32_mul zero_ldm32 5000
                                  scenario_para 3 ramp_state32 H1 H2)))))) _).
  apply fuel_5000. change (local_count_of 3 (count scenario_para)) with 1. lia.
Defined.

Lemma chunk_boundary_equiv_witness :
  0 <= 4096 /\ 4096 + 1 <= INT_MAX /\ 4096 mod BUFFSIZE = 0 /\
  seqZ 0 SPNUM ≡ₚ seqZ 0 SPNUM /\
  no_cross_alias 0 10000 (4096 + 1) /\
  BUFFSIZE + 4096 + 1 < Z.of_nat (Z.to_nat 10000) /\
  exists s1 s2,
    run_workers (sw_slave_sscal_f f32_mul zero_ldm32 (Z.to_nat 10000))
                (mk_para 0 10000 (f32_of_Z 2) 4096) (seqZ 0 SPNUM) ramp_state32
    = Ok (tt, s1) /\
    run_workers (sw_slave_sscal_f f32_mul zero_ldm32 (Z.to_nat 10000))
                (mk_para 0 10000 (f32_of_Z 2) (4096 + 1)) (seqZ 0 SPNUM) ramp_state32
    = Ok (tt, s2) /\
    forall i, 0 <= i < 4096 -> gmem s1 (10000 + i) = gmem s2 (10000 + i).
Proof.
  assert (H1 : 0 <= 4096) by lia.
  assert (H2 : 4096 + 1 <= INT_MAX) by (rewrite INT_MAX_eq; lia).
  assert (H3 : 4096 mod BUFFSIZE = 0) by reflexivity.
  assert (H4 : seqZ 0 SPNUM ≡ₚ seqZ 0 SPNUM) by reflexivity.
  assert (H5 : no_cross_alias 0 10000 (4096 + 1)) by (apply no_cross_alias_apart; lia).
  assert (H6 : BUFFSIZE + 4096 + 1 < Z.of_nat (Z.to_nat 10000)).
  { rewrite <- Z.add_assoc. apply fuel_10000. lia. }
  do 6 (split; [assumption|]).
  exact (chunk_boundary_equiv f32_mul zero_ldm32 (Z.to_nat 10000) 0 10000 (f32_of_Z 2)
                              4096 (seqZ 0 SPNUM) (seqZ 0 SPNUM) ramp_state32
                              H1 H2 H3 H4 H4 H5 H6).
Defined.

Lemma rerun_same_when_apart_witness :
  0 <= count scenario_para <= INT_MAX /\
  seqZ 0 SPNUM ≡ₚ seqZ 0 SPNUM /\
  count scenario_para <= Z.abs (src scenario_para - dst scenario_para) /\
  BUFFSIZE + count scenario_para < Z.of_nat 5000 /\
  exists s1 s2,
    run_workers (sw_slave_sscal_f f32_mul zero_ldm32 5000) scenario_para
                (seqZ 0 SPNUM) ramp_state32 = Ok (tt, s1) /\
    run_workers (sw_slave_sscal_f f32_mul zero_ldm32 5000) scenario_para
                (seqZ 0 SPNUM) s1 = Ok (tt, s2) /\
    forall x, gmem s2 x = gmem s1 x.
Proof.
  assert (H1 : 0 <= count scenario_para <= INT_MAX) by (apply count_ok; simpl; lia).
  assert (H2 : seqZ 0 SPNUM ≡ₚ seqZ 0 SPNUM) by reflexivity.
  assert (H3 : count scenario_para <= Z.abs (src scenario_para - dst scenario_para))
    by (simpl; lia).
  assert (H4 : BUFFSIZE + count scenario_para < Z.of_nat 5000)
    by (apply fuel_5000; simpl; lia).
  do 4 (split; [assumption|]).
  destruct (rerun_same_when_apart f32_mul zero_ldm32 5000 scenario_para
                                  (seqZ 0 SPNUM) (seqZ 0 SPNUM) ramp_state32
                                  H1 H2 H2 H3 H4)
    as (s1 & s2 & R1 & R2 & Heq & _).
  exists s1, s2. split; [exact R1|]. split; [exact R2 | exact Heq].
Defined.

(** C8 as stated fails when the descriptor names the same vector as
    source and destination (scaling in place, which the kernel supports):
    with x = [1.0] and alpha = 2.0 the first run leaves 2.0 and the second
    run, reading what the first wrote, leaves 4.0. *)
Lemma rerun_in_place_differs :
  exists s1 s2,
    run_workers (sw_slave_sscal_f f32_mul zero_ldm32 5000) in_place_para
                (seqZ 0 SPNUM) ramp_state32 = Ok (tt, s1) /\
    run_workers (sw_slave_sscal_f f32_mul zero_ldm32 5000) in_place_para
                (seqZ 0 SPNUM) s1 = Ok (tt, s2) /\
    gmem s1 (dst in_place_para) = f32_of_Z 2 /\
    gmem s2 (dst in_place_para) = f32_of_Z 4 /\
    gmem s2 (dst in_place_para) <> gmem s1 (dst in_place_para).
Proof.
  assert (H1 : 0 <= count in_place_para <= INT_MAX) by (apply count_ok; simpl; lia).
  assert (H2 : seqZ 0 SPNUM ≡ₚ seqZ 0 SPNUM) by reflexivity.
  assert (H3 : BUFFSIZE + count in_place_para < Z.of_nat 5000)
    by (apply fuel_5000; simpl; lia).
  pose proof (no_cross_alias_same 1 1) as H4.
  destruct (kernel_ok f32_mul zero_ldm32 5000 in_place_para (seqZ 0 SPNUM) H1 H2 H3
                      ramp_state32) as (s1 & Hrun1 & _ & Hfun1).
  destruct (kernel_ok f32_mul zero_ldm32 5000 in_place_para (seqZ 0 SPNUM) H1 H2 H3 s1)
    as (s2 & Hrun2 & _ & Hfun2).
  specialize (Hfun1 H4 0 ltac:(simpl; lia)).
  specialize (Hfun2 H4 0 ltac:(simpl; lia)).
  cbn [dst src alpha in_place_para] in *.
  change (1 + 0) with 1 in *.
  assert (E1 : gmem s1 1 = f32_of_Z 2) by (rewrite Hfun1; reflexivity).
  assert (E2 : gmem s2 1 = f32_of_Z 4) by (rewrite Hfun2, E1; reflexivity).
  exists s1, s2. do 4 (split; [assumption|]).
  rewrite E1, E2. discriminate.
Qed.

(** C9 as stated fails: the worker population of the source is the
    constant SPNUM = 64, not 4, so for N = 10 the first four workers do
    not receive the local counts [3,3,2,2] at the offsets [0,3,6,8]. *)
Lemma scenario_counts_differ :
  SPNUM = 64 /\
  map (fun id => local_count_of id 10) [0; 1; 2; 3] = [1; 1; 1; 1] /\
  map (fun id => start_of id 10) [0; 1; 2; 3] = [0; 1; 2; 3] /\
  map (fun id => local_count_of id 10) [0; 1; 2; 3] <> [3; 3; 2; 2] /\
  map (fun id => start_of id 10) [0; 1; 2; 3] <> [0; 3; 6; 8].
Proof. repeat split; try reflexivity; vm_compute; discriminate. Qed.

(** C9, amended. For N=10, single precision, alpha=2.0 and
    x=[0,1,...,9]: the partition formulas of the specification taken at
    P=4 give the local counts [3,3,2,2] at the start offsets [0,3,6,8];
    the source, whose worker population is fixed at SPNUM=64, gives
    workers 0..9 one element each at the start offsets 0..9 and workers
    10..63 no element (start offset 10); and the kernel leaves the
    destination equal to [0,2,4,...,18]. *)
Theorem scenario_ten (uninit : ldm_buf -> nat -> float32) (fuel : nat)
        (sp dp : Z) (ids : list Z) (s : @state float32) :
  (forall i, 0 <= i < 10 -> gmem s (sp + i) = f32_of_Z i) ->
  no_cross_alias sp dp 10 ->
  ids ≡ₚ seqZ 0 SPNUM ->
  BUFFSIZE + 10 < Z.of_nat fuel ->
  map (spec_local_count 4 10) [0; 1; 2; 3] = [3; 3; 2; 2] /\
  map (spec_start_offset 4 10) [0; 1; 2; 3] = [0; 3; 6; 8] /\
  map (fun id => local_count_of id 10) (seqZ 0 SPNUM)
  = replicate 10 1 ++ replicate 54 0 /\
  map (fun id => start_of id 10) (seqZ 0 SPNUM) = seqZ 0 10 ++ replicate 54 10 /\
  exists s',
    run_workers (sw_slave_sscal_f f32_mul uninit fuel)
                (mk_para sp dp (f32_of_Z 2) 10) ids s = Ok (tt, s') /\
    map (fun i => gmem s' (dp + i)) (seqZ 0 10)
    = map f32_of_Z [0; 2; 4; 6; 8; 10; 12; 14; 16; 18].
Proof.
  intros Hx Halias Hperm Hfuel.
  do 4 (split; [reflexivity|]).
  destruct (kernel_ok f32_mul uninit fuel (mk_para sp dp (f32_of_Z 2) 10) ids
                      ltac:(apply count_ok; simpl; lia) Hperm Hfuel s)
    as (s' & Hrun & _ & Hfun).
  exists s'. split; [exact Hrun|].
  specialize (Hfun Halias). cbn [src dst alpha count] in Hfun.
  change (seqZ 0 10) with [0; 1; 2; 3; 4; 5; 6; 7; 8; 9].
  cbn [map].
  rewrite !Hfun, !Hx by lia. reflexivity.
Qed.

Lemma scenario_ten_witness :
  (forall i, 0 <= i < 10 -> gmem ramp_state32 (0 + i) = f32_of_Z i) /\
  no_cross_alias 0 100 10 /\
  seqZ 0 SPNUM ≡ₚ seqZ 0 SPNUM /\
  BUFFSIZE + 10 < Z.of_nat 5000 /\
  map (spec_local_count 4 10) [0; 1; 2; 3] = [3; 3; 2; 2] /\
  map (spec_start_offset 4 10) [0; 1; 2; 3] = [0; 3; 6; 8] /\
  map (fun id => local_count_of id 10) (seqZ 0 SPNUM)
  = replicate 10 1 ++ replicate 54 0 /\
  map (fun id => start_of id 10) (seqZ 0 SPNUM) = seqZ 0 10 ++ replicate 54 10 /\
  exists s',
    run_workers (sw_slave_sscal_f f32_mul zero_ldm32 5000)
                (mk_para 0 100 (f32_of_Z 2) 10) (seqZ 0 SPNUM) ramp_state32 = Ok (tt, s') /\
    map (fun i => gmem s' (100 + i)) (seqZ 0 10)
    = map f32_of_Z [0; 2; 4; 6; 8; 10; 12; 14; 16; 18].
Proof.
  assert (H1 : forall i, 0 <= i < 10 -> gmem ramp_state32 (0 + i) = f32_of_Z i)
    by (intros i _; reflexivity).
  assert (H2 : no_cross_alias 0 100 10) by (apply no_cross_alias_apart; lia).
  assert (H3 : seqZ 0 SPNUM ≡ₚ seqZ 0 SPNUM) by reflexivity.
  assert (H4 : BUFFSIZE + 10 < Z.of_nat 5000) by (apply fuel_5000; lia).
  do 4 (split; [assumption|]).
  exact (scenario_ten zero_ldm32 5000 0 100 (seqZ 0 SPNUM) ramp_state32 H1 H2 H3 H4).
Defined.


(** * Further properties of the kernel *)

(** ** The partitioner *)

Lemma sum_local_counts (N : Z) (k : nat) :
  0 <= N <= INT_MAX -> (k <= 64)%nat ->
  foldr Z.add 0 (map (fun id => local_count_of id N) (seqZ 0 (Z.of_nat k)))
  = start_of (Z.of_nat k) N.
Proof.
  intros HN. induction k as [|k IH]; intros Hk.
  - rewrite start_0 by assumption. reflexivity.
  - rewrite seqZ_S, map_app, foldr_app. cbn [map foldr].
    replace (Z.of_nat (S k)) with (Z.of_nat k + 1) by lia.
    rewrite start_succ by lia.
    rewrite <- IH by lia. rewrite Z.add_0_l, Z.add_0_r.
    generalize (map (fun id => local_count_of id N) (seqZ 0 (Z.of_nat k))).
    intros l. induction l as [|x l IHl]; cbn [foldr]; lia.
Qed.

(** X1. The partition is balanced: the local counts of any two workers
    differ by at most one, a worker never gets more elements than a
    lower-indexed one, and the 64 local counts add up to N. *)
Theorem partition_balanced (N id1 id2 : Z) :
  0 <= N <= INT_MAX -> 0 <= id1 < SPNUM -> 0 <= id2 < SPNUM ->
  Z.abs (local_count_of id1 N - local_count_of id2 N) <= 1 /\
  (id1 <= id2 -> local_count_of id2 N <= local_count_of id1 N) /\
  total_count N = N.
Proof.
  intros HN H1 H2. rewrite !local_count_closed by assumption.
  split; [|split].
  - destruct (id1 <? N mod 64), (id2 <? N mod 64); lia.
  - intros Hle.
    destruct (Z.ltb_spec id1 (N mod 64)), (Z.ltb_spec id2 (N mod 64)); lia.
  - unfold total_count. change SPNUM with (Z.of_nat 64).
    rewrite sum_local_counts by (assumption || lia).
    apply start_last. assumption.
Qed.

Lemma partition_balanced_witness :
  0 <= 10 <= INT_MAX /\ 0 <= 3 < SPNUM /\ 0 <= 12 < SPNUM /\
  Z.abs (local_count_of 3 10 - local_count_of 12 10) <= 1 /\
  (3 <= 12 -> local_count_of 12 10 <= local_count_of 3 10) /\
  total_count 10 = 10.
Proof.
  assert (H1 : 0 <= 10 <= INT_MAX) by (unfold INT_MAX; lia).
  assert (H2 : 0 <= 3 < SPNUM) by (unfold SPNUM; lia).
  assert (H3 : 0 <= 12 < SPNUM) by (unfold SPNUM; lia).
  do 3 (split; [assumption|]).
  exact (partition_balanced 10 3 12 H1 H2 H3).
Defined.

(** X2. No arithmetic of the partitioner or of the loop guards leaves the
    range of a C int: the product id*(count/SPNUM) is computed exactly,
    the start offset lies in [0, count] (so &src[start] and &dst[start]
    point into the vectors or one past their end, also for a worker with
    nothing to do), start + local_count <= count, and
    local_count + BUFFSIZE <= INT_MAX, so that off + BUFFSIZE - 1 cannot
    overflow for any off <= local_count. *)
Theorem partition_in_int_range (N id : Z) :
  0 <= N <= INT_MAX -> 0 <= id < SPNUM ->
  imul id (idiv N SPNUM) = id * (N / SPNUM) /\
  0 <= id * (N / SPNUM) <= INT_MAX /\
  0 <= start_of id N <= N /\
  0 <= local_count_of id N /\
  start_of id N + local_count_of id N <= N /\
  local_count_of id N + BUFFSIZE <= INT_MAX.
Proof.
  intros HN Hid.
  destruct (local_count_small id N HN Hid) as [Hlc Hmax].
  pose proof (start_bounds id N HN Hid) as [Hs Hb].
  assert (Hq : 0 <= N / 64) by (apply Z.div_pos; lia).
  pose proof (Z.div_mod N 64 ltac:(lia)) as Hdm.
  pose proof (Z.mod_pos_bound N 64 ltac:(lia)) as Hm.
  pose proof (idiv_SPNUM N HN) as Hd.
  unfold SPNUM in *.
  assert (Hprod : 0 <= id * (N / 64) <= INT_MAX) by (rewrite INT_MAX_eq in *; nia).
  split; [|split; [exact Hprod|repeat split; lia]].
  rewrite Hd. unfold imul. apply wrap_small.
  rewrite INT_MIN_eq. lia.
Qed.

Lemma partition_in_int_range_witness :
  0 <= INT_MAX <= INT_MAX /\ 0 <= 63 < SPNUM /\
  imul 63 (idiv INT_MAX SPNUM) = 63 * (INT_MAX / SPNUM) /\
  0 <= 63 * (INT_MAX / SPNUM) <= INT_MAX /\
  0 <= start_of 63 INT_MAX <= INT_MAX /\
  0 <= local_count_of 63 INT_MAX /\
  start_of 63 INT_MAX + local_count_of 63 INT_MAX <= INT_MAX /\
  local_count_of 63 INT_MAX + BUFFSIZE <= INT_MAX.
Proof.
  assert (H1 : 0 <= INT_MAX <= INT_MAX) by (unfold INT_MAX; lia).
  assert (H2 : 0 <= 63 < SPNUM) by (unfold SPNUM; lia).
  do 2 (split; [assumption|]).
  exact (partition_in_int_range INT_MAX 63 H1 H2).
Defined.

(** ** What the transfers of a run touch *)

Lemma get_addrs_app evs1 evs2 :
  get_addrs (evs1 ++ evs2) = get_addrs evs1 ++ get_addrs evs2.
Proof. apply flat_map_app. Qed.

Lemma put_addrs_app evs1 evs2 :
  put_addrs (evs1 ++ evs2) = put_addrs evs1 ++ put_addrs evs2.
Proof. apply flat_map_app. Qed.

Lemma count_events_app p evs1 evs2 :
  count_events p (evs1 ++ evs2) = count_events p evs1 + count_events p evs2.
Proof. unfold count_events. rewrite List.filter_app, length_app. lia. Qed.

Lemma addrs_chunks sp dp (k : nat) :
  get_addrs (chunk_events sp dp k) = seqZ sp (Z.of_nat k * BUFFSIZE) /\
  put_addrs (chunk_events sp dp k) = seqZ dp (Z.of_nat k * BUFFSIZE).
Proof.
  pose proof BUFFSIZE_eq as HB.
  induction k as [|k [IHg IHp]]; [split; reflexivity|].
  rewrite chunk_events_S, get_addrs_app, put_addrs_app, IHg, IHp.
  replace (Z.of_nat (S k) * BUFFSIZE) with (Z.of_nat k * BUFFSIZE + BUFFSIZE) by lia.
  rewrite !seqZ_app by lia.
  unfold get_addrs, put_addrs. cbn [flat_map]. rewrite !app_nil_r.
  split; reflexivity.
Qed.

Lemma count_chunks sp dp (k : nat) :
  count_events is_get (chunk_events sp dp k) = Z.of_nat k /\
  count_events is_put (chunk_events sp dp k) = Z.of_nat k.
Proof.
  induction k as [|k [IHg IHp]]; [split; reflexivity|].
  rewrite chunk_events_S, !count_events_app, IHg, IHp.
  unfold count_events. cbn [List.filter is_get is_put length]. split; lia.
Qed.

Lemma size_chunks sp dp (k : nat) : Forall transfer_size_ok (chunk_events sp dp k).
Proof.
  pose proof BUFFSIZE_eq as HB.
  induction k as [|k IH]; [constructor|].
  rewrite chunk_events_S. apply Forall_app. split; [exact IH|].
  repeat constructor; lia.
Qed.

(* the log of one worker, read three ways *)
Lemma worker_events_read src dst count id :
  0 <= count <= INT_MAX -> 0 <= id < SPNUM ->
  let evs := worker_events src dst count id in
  let lc := local_count_of id count in
  get_addrs evs = seqZ (src + start_of id count) lc /\
  put_addrs evs = seqZ (dst + start_of id count) lc /\
  count_events is_get evs = (lc + BUFFSIZE - 1) / BUFFSIZE /\
  count_events is_put evs = (lc + BUFFSIZE - 1) / BUFFSIZE /\
  Forall transfer_size_ok evs.
Proof.
  intros Hcount Hid evs lc. subst evs.
  destruct (local_count_small id count Hcount Hid) as [Hlc _]. fold lc in Hlc.
  pose proof BUFFSIZE_eq as HB.
  pose proof (Z.div_mod lc BUFFSIZE ltac:(lia)) as Hdm.
  pose proof (Z.mod_pos_bound lc BUFFSIZE ltac:(lia)) as Hmod.
  assert (Hq : 0 <= lc / BUFFSIZE) by (apply Z.div_pos; lia).
  unfold worker_events, transfer_events. fold lc.
  set (sp := src + start_of id count). set (dp := dst + start_of id count).
  rewrite !get_addrs_app, !put_addrs_app, !count_events_app.
  destruct (addrs_chunks sp dp (Z.to_nat (lc / BUFFSIZE))) as [Hg Hp].
  destruct (count_chunks sp dp (Z.to_nat (lc / BUFFSIZE))) as [Hcg Hcp].
  rewrite Hg, Hp, Hcg, Hcp, Z2Nat.id by lia.
  unfold tail_events. cbv zeta.
  set (off := lc / BUFFSIZE * BUFFSIZE) in *.
  assert (Hceil_tail : off < lc -> (lc + BUFFSIZE - 1) / BUFFSIZE = lc / BUFFSIZE + 1).
  { intros Hlt. symmetry.
    apply (Z.div_unique _ BUFFSIZE _ (lc mod BUFFSIZE - 1)); unfold off in *; lia. }
  assert (Hceil_none : lc <= off -> (lc + BUFFSIZE - 1) / BUFFSIZE = lc / BUFFSIZE).
  { intros Hge. symmetry.
    apply (Z.div_unique _ BUFFSIZE _ (BUFFSIZE - 1)); unfold off in *; lia. }
  destruct (Z.ltb_spec off lc) as [Htail|Hnone].
  - rewrite (Hceil_tail Htail).
    unfold get_addrs, put_addrs, count_events.
    cbn [flat_map List.filter is_get is_put length app]. rewrite !app_nil_r.
    assert (Hsplit : forall m, seqZ m off ++ seqZ (m + off) (lc - off) = seqZ m lc).
    { intros m. rewrite <- seqZ_app by (unfold off in *; lia). f_equal. lia. }
    rewrite !Hsplit.
    do 4 (split; [reflexivity || lia|]).
    change (Forall transfer_size_ok
              ([EvMalloc (BUFFSIZE * sizeof_float); EvMalloc (BUFFSIZE * sizeof_float)]
               ++ (chunk_events sp dp (Z.to_nat (lc / BUFFSIZE))
                   ++ [EvGet (sp + off) (lc - off); EvPut (dp + off) (lc - off)])
               ++ [EvFree (BUFFSIZE * sizeof_float); EvFree (BUFFSIZE * sizeof_float)])).
    repeat (apply Forall_app; split); try apply size_chunks;
      repeat constructor; unfold off in *; lia.
  - rewrite (Hceil_none Hnone).
    unfold get_addrs, put_addrs, count_events.
    cbn [flat_map List.filter is_get is_put length app]. rewrite !app_nil_r.
    assert (Hoff : off = lc) by (unfold off in *; lia).
    rewrite Hoff.
    do 4 (split; [reflexivity || lia|]).
    do 2 (constructor; [exact I|]).
    apply Forall_app. split; [apply size_chunks | repeat constructor].
Qed.

Lemma flat_map_worker_addrs src dst count (ids : list Z) :
  0 <= count <= INT_MAX -> Forall (fun id => 0 <= id < SPNUM) ids ->
  get_addrs (flat_map (worker_events src dst count) ids)
  = flat_map (fun id => seqZ (src + start_of id count) (local_count_of id count)) ids /\
  put_addrs (flat_map (worker_events src dst count) ids)
  = flat_map (fun id => seqZ (dst + start_of id count) (local_count_of id count)) ids.
Proof.
  intros Hcount Hids. induction Hids as [|id rest Hid _ [IHg IHp]]; [split; reflexivity|].
  cbn [flat_map]. rewrite get_addrs_app, put_addrs_app, IHg, IHp.
  destruct (worker_events_read src dst count id Hcount Hid) as (Hg & Hp & _).
  rewrite Hg, Hp. split; reflexivity.
Qed.

(* the ranges of the first k workers, end to end, are the first start(k)
   indices *)
Lemma ranges_concat base count (k : nat) :
  0 <= count <= INT_MAX -> (k <= 64)%nat ->
  flat_map (fun id => seqZ (base + start_of id count) (local_count_of id count))
           (seqZ 0 (Z.of_nat k))
  = seqZ base (start_of (Z.of_nat k) count).
Proof.
  intros Hcount. induction k as [|k IH]; intros Hk.
  - rewrite start_0 by assumption. reflexivity.
  - rewrite seqZ_S, flat_map_app, IH by lia. cbn [flat_map]. rewrite app_nil_r.
    replace (Z.of_nat (S k)) with (Z.of_nat k + 1) by lia.
    rewrite start_succ by lia. rewrite Z.add_0_l.
    pose proof (local_count_nonneg (Z.of_nat k) count Hcount).
    pose proof (start_mono 0 (Z.of_nat k) count Hcount ltac:(lia) ltac:(lia) ltac:(lia)) as Hs.
    rewrite start_0 in Hs by assumption.
    rewrite seqZ_app by lia. reflexivity.
Qed.

Section ExtraKernel.

Context {elem : Type}.
Variable fmul : elem -> elem -> elem.
Variable uninit : ldm_buf -> nat -> elem.

(** X3. One worker transfers every element of its range exactly once each
    way: read in the order of the log, its in-transfers cover the source
    addresses src+start, ..., src+start+local_count-1 in increasing order
    without gap or repetition, and its out-transfers cover the same
    indices of the destination. *)
Theorem worker_transfers_once (fuel : nat) (para : @sscalPara elem) (id : Z)
        (s : @state elem) :
  0 <= count para <= INT_MAX -> 0 <= id < SPNUM ->
  BUFFSIZE + local_count_of id (count para) < Z.of_nat fuel ->
  exists s' evs,
    sw_slave_sscal_f fmul uninit fuel para id s = Ok (tt, s') /\
    trace s' = trace s ++ evs /\
    get_addrs evs = seqZ (src para + start_of id (count para))
                         (local_count_of id (count para)) /\
    put_addrs evs = seqZ (dst para + start_of id (count para))
                         (local_count_of id (count para)).
Proof.
  intros Hcount Hid Hfuel.
  destruct (worker_ok fmul uninit fuel para id s Hcount Hid Hfuel)
    as (s' & Hrun & Htr & _).
  destruct (worker_events_read (src para) (dst para) (count para) id Hcount Hid)
    as (Hg & Hp & _).
  exists s', (worker_events (src para) (dst para) (count para) id).
  repeat split; assumption.
Qed.

(** X4. One worker issues ceil(local_count / BUFFSIZE) in-transfers and as
    many out-transfers, and each of them moves at least one and at most
    BUFFSIZE elements, so that a transfer always fits the staging
    buffer. *)
Theorem worker_transfer_count (fuel : nat) (para : @sscalPara elem) (id : Z)
        (s : @state elem) :
  0 <= count para <= INT_MAX -> 0 <= id < SPNUM ->
  BUFFSIZE + local_count_of id (count para) < Z.of_nat fuel ->
  exists s' evs,
    sw_slave_sscal_f fmul uninit fuel para id s = Ok (tt, s') /\
    trace s' = trace s ++ evs /\
    count_events is_get evs
    = (local_count_of id (count para) + BUFFSIZE - 1) / BUFFSIZE /\
    count_events is_put evs
    = (local_count_of id (count para) + BUFFSIZE - 1) / BUFFSIZE /\
    Forall transfer_size_ok evs.
Proof.
  intros Hcount Hid Hfuel.
  destruct (worker_ok fmul uninit fuel para id s Hcount Hid Hfuel)
    as (s' & Hrun & Htr & _).
  destruct (worker_events_read (src para) (dst para) (count para) id Hcount Hid)
    as (_ & _ & Hg & Hp & Hsz).
  exists s', (worker_events (src para) (dst para) (count para) id).
  repeat split; assumption.
Qed.

(** X5. The whole population, in any order of execution, reads every
    element of the source vector exactly once and writes every element of
    the destination vector exactly once: the addresses of its in-transfers
    are a permutation of src, ..., src+N-1 and those of its out-transfers
    a permutation of dst, ..., dst+N-1. *)
Theorem kernel_transfers_once (fuel : nat) (para : @sscalPara elem)
        (ids : list Z) (s : @state elem) :
  0 <= count para <= INT_MAX ->
  ids ≡ₚ seqZ 0 SPNUM ->
  BUFFSIZE + count para < Z.of_nat fuel ->
  exists s' evs,
    run_workers (sw_slave_sscal_f fmul uninit fuel) para ids s = Ok (tt, s') /\
    trace s' = trace s ++ evs /\
    get_addrs evs ≡ₚ seqZ (src para) (count para) /\
    put_addrs evs ≡ₚ seqZ (dst para) (count para).
Proof.
  intros Hcount Hperm Hfuel.
  assert (Hids : Forall (fun id => 0 <= id < SPNUM) ids).
  { apply Forall_forall. intros id Hin. rewrite Hperm in Hin.
    apply elem_of_seqZ in Hin. lia. }
  assert (Hnodup : NoDup ids) by (rewrite Hperm; apply NoDup_seqZ).
  destruct (run_workers_ok fmul uninit fuel para ids Hcount Hids Hnodup Hfuel s)
    as (s' & Hrun & Htr & _).
  destruct (flat_map_worker_addrs (src para) (dst para) (count para) ids Hcount Hids)
    as [Hg Hp].
  exists s', (flat_map (worker_events (src para) (dst para) (count para)) ids).
  split; [exact Hrun|]. split; [exact Htr|].
  rewrite Hg, Hp.
  assert (Hall : forall base,
             flat_map (fun id => seqZ (base + start_of id (count para))
                                      (local_count_of id (count para))) ids
             ≡ₚ seqZ base (count para)).
  { intros base.
    rewrite (Permutation_flat_map _ Hperm).
    change SPNUM with (Z.of_nat 64).
    rewrite (ranges_concat base (count para) 64 Hcount) by lia.
    change (Z.of_nat 64) with 64. rewrite start_last by assumption. reflexivity. }
  split; apply Hall.
Qed.

(** X6. Whatever state it starts from, a worker returns with both staging
    buffers released, both reply words back at zero, and the two
    descriptors bound to their own direction, PE_MODE and reply word; the
    descriptors keep the byte count of the last transfer (that of the
    partial last chunk if there was one).  Its log opens with the two
    allocations and closes with the two releases, of equal byte counts. *)
Theorem worker_releases (fuel : nat) (para : @sscalPara elem) (id : Z)
        (s : @state elem) :
  0 <= count para <= INT_MAX -> 0 <= id < SPNUM ->
  BUFFSIZE + local_count_of id (count para) < Z.of_nat fuel ->
  exists s' mid,
    sw_slave_sscal_f fmul uninit fuel para id s = Ok (tt, s') /\
    trace s' = trace s
               ++ [EvMalloc (BUFFSIZE * sizeof_float); EvMalloc (BUFFSIZE * sizeof_float)]
               ++ mid
               ++ [EvFree (BUFFSIZE * sizeof_float); EvFree (BUFFSIZE * sizeof_float)] /\
    Forall (fun e => is_get e || is_put e = true) mid /\
    local_src s' = [] /\ local_dst s' = [] /\
    replyget s' = 0 /\ replyput s' = 0 /\
    dma_get_sscal_src s'
    = mk_desc DMA_GET PE_MODE Replyget (last_size (local_count_of id (count para))) /\
    dma_put_sscal_dst s'
    = mk_desc DMA_PUT PE_MODE Replyput (last_size (local_count_of id (count para))) /\
    0 < last_size (local_count_of id (count para)) <= BUFFSIZE * sizeof_float.
Proof.
  intros Hcount Hid Hfuel.
  destruct (local_count_small id (count para) Hcount Hid) as [Hlc _].
  destruct (worker_run fmul uninit fuel para id s Hcount Hid Hfuel)
    as (s' & Hrun & Htr & _ & Hls & Hld & Hrg & Hrp & Hdg & Hdp).
  exists s', (transfer_events (src para + start_of id (count para))
                              (dst para + start_of id (count para))
                              (local_count_of id (count para))).
  split; [exact Hrun|]. split; [exact Htr|].
  split; [|repeat split; try assumption].
  - unfold transfer_events, tail_events. apply Forall_app. split.
    + generalize (Z.to_nat (local_count_of id (count para) / BUFFSIZE)).
      intros k. induction k as [|k IH]; [constructor|].
      rewrite chunk_events_S. apply Forall_app. split; [exact IH|].
      repeat constructor.
    + cbv zeta. destruct (_ <? _); repeat constructor.
  - unfold last_size. pose proof BUFFSIZE_eq.
    destruct (Z.ltb_spec (local_count_of id (count para) / BUFFSIZE * BUFFSIZE)
                         (local_count_of id (count para))); unfold sizeof_float; lia.
  - unfold last_size. pose proof BUFFSIZE_eq as HB.
    pose proof (Z.div_mod (local_count_of id (count para)) BUFFSIZE ltac:(lia)).
    pose proof (Z.mod_pos_bound (local_count_of id (count para)) BUFFSIZE ltac:(lia)).
    destruct (Z.ltb_spec (local_count_of id (count para) / BUFFSIZE * BUFFSIZE)
                         (local_count_of id (count para))); unfold sizeof_float; lia.
Qed.


(* a worker whose local count is not positive enters neither loop nor the
   tail branch *)
Lemma idle_worker (fuel : nat) (para : @sscalPara elem) (id : Z) (s : @state elem) :
  local_count_of id (count para) <= 0 -> (0 < fuel)%nat ->
  exists s',
    sw_slave_sscal_f fmul uninit fuel para id s = Ok (tt, s') /\
    trace s' = trace s ++ [EvMalloc (BUFFSIZE * sizeof_float);
                           EvMalloc (BUFFSIZE * sizeof_float);
                           EvFree (BUFFSIZE * sizeof_float);
                           EvFree (BUFFSIZE * sizeof_float)] /\
    forall x, gmem s' x = gmem s x.
Proof.
  intros Hle Hfuel.
  destruct s as [g ls ld dg dp rg rp tr].
  destruct fuel as [|fuel]; [lia|].
  unfold sw_slave_sscal_f. cbv zeta.
  set (lc := local_count_of id (count para)) in *.
  rewrite (bind_ok _ _ _ _ _ (ldm_malloc_run uninit Local_src _ _)).
  rewrite (bind_ok _ _ _ _ _ (ldm_malloc_run uninit Local_dst _ _)).
  cbn [log set_buf gmem local_src local_dst dma_get_sscal_src dma_put_sscal_dst
       replyget replyput trace].
  generalize (map (uninit Local_src)
                  (seq 0 (Z.to_nat (BUFFSIZE * sizeof_float / sizeof_float)))).
  generalize (map (uninit Local_dst)
                  (seq 0 (Z.to_nat (BUFFSIZE * sizeof_float / sizeof_float)))).
  intros ld0 ls0.
  do 10 run_config.
  rewrite (bind_ok _ _ _ _ _
             (main_loop_none fmul fuel _ _ _ lc _ ltac:(rewrite BUFFSIZE_eq; lia))).
  destruct (Z.ltb_spec 0 lc) as [Hpos|_]; [lia|].
  rewrite (bind_ok _ _ _ tt _ eq_refl).
  rewrite (bind_ok _ _ _ _ _ (ldm_free_run Local_src _ _)).
  rewrite ldm_free_run.
  eexists. split; [reflexivity|].
  cbn [log set_buf gmem local_src local_dst dma_get_sscal_src dma_put_sscal_dst
       replyget replyput trace].
  split; [|reflexivity].
  rewrite <- !app_assoc. reflexivity.
Qed.

Lemma local_count_negative id n :
  INT_MIN <= n < 0 -> 0 <= id -> local_count_of id n <= 0.
Proof.
  intros Hn Hid. rewrite INT_MIN_eq in Hn.
  unfold local_count_of, iadd, idiv, irem, ilt, SPNUM.
  replace n with (- (- n)) by lia.
  rewrite Z.quot_opp_l, Z.rem_opp_l by lia.
  rewrite Z.quot_div_nonneg, Z.rem_mod_nonneg by lia.
  pose proof (Z.mod_pos_bound (- n) 64 ltac:(lia)) as Hm.
  assert (Hq : 0 <= - n / 64) by (apply Z.div_pos; lia).
  pose proof (Z.div_le_upper_bound (- n) 64 2147483648 ltac:(lia) ltac:(lia)) as Hu.
  rewrite (wrap_small (- (- n mod 64))) by (rewrite INT_MIN_eq, INT_MAX_eq; lia).
  rewrite (wrap_small (- (- n / 64))) by (rewrite INT_MIN_eq, INT_MAX_eq; lia).
  destruct (Z.ltb_spec id (- (- n mod 64))); [lia|].
  rewrite wrap_small by (rewrite INT_MIN_eq, INT_MAX_eq; lia). lia.
Qed.

(** X7. A negative element count is treated like an empty vector: for
    every count in [INT_MIN, 0) the truncating division makes every
    worker's local_count non-positive, so the worker acquires and releases
    its buffers, issues no transfer and leaves global memory unchanged. *)
Theorem negative_count_idle (fuel : nat) (para : @sscalPara elem) (id : Z)
        (s : @state elem) :
  INT_MIN <= count para < 0 -> 0 <= id < SPNUM -> (0 < fuel)%nat ->
  local_count_of id (count para) <= 0 /\
  exists s',
    sw_slave_sscal_f fmul uninit fuel para id s = Ok (tt, s') /\
    trace s' = trace s ++ [EvMalloc (BUFFSIZE * sizeof_float);
                           EvMalloc (BUFFSIZE * sizeof_float);
                           EvFree (BUFFSIZE * sizeof_float);
                           EvFree (BUFFSIZE * sizeof_float)] /\
    forall x, gmem s' x = gmem s x.
Proof.
  intros Hcount Hid Hfuel.
  pose proof (local_count_negative id (count para) Hcount ltac:(lia)) as Hle.
  split; [exact Hle|]. apply idle_worker; assumption.
Qed.

(** X8. Scaling in place: when the descriptor names the same vector as
    source and destination, the whole population, in any order, replaces
    every x[i] by x[i] * alpha and leaves the rest of global memory
    unchanged. *)
Theorem scal_in_place (fuel : nat) (p : Z) (a : elem) (N : Z)
        (ids : list Z) (s : @state elem) :
  0 <= N <= INT_MAX ->
  ids ≡ₚ seqZ 0 SPNUM ->
  BUFFSIZE + N < Z.of_nat fuel ->
  exists s',
    run_workers (sw_slave_sscal_f fmul uninit fuel) (mk_para p p a N) ids s
    = Ok (tt, s') /\
    (forall i, 0 <= i < N -> gmem s' (p + i) = fmul (gmem s (p + i)) a) /\
    (forall x, ~ (p <= x < p + N) -> gmem s' x = gmem s x).
Proof.
  intros HN Hperm Hfuel.
  destruct (kernel_ok fmul uninit fuel (mk_para p p a N) ids HN Hperm Hfuel s)
    as (s' & Hrun & Hframe & Hfun).
  exists s'. split; [exact Hrun|]. split; [|exact Hframe].
  apply Hfun. apply no_cross_alias_same.
Qed.

(** X9. With the destination apart from the source, a run of the whole
    population leaves the source vector, and every other word of global
    memory outside the destination vector, as it was. *)
Theorem source_preserved (fuel : nat) (para : @sscalPara elem)
        (ids : list Z) (s : @state elem) :
  0 <= count para <= INT_MAX ->
  ids ≡ₚ seqZ 0 SPNUM ->
  count para <= Z.abs (src para - dst para) ->
  BUFFSIZE + count para < Z.of_nat fuel ->
  exists s',
    run_workers (sw_slave_sscal_f fmul uninit fuel) para ids s = Ok (tt, s') /\
    (forall i, 0 <= i < count para -> gmem s' (src para + i) = gmem s (src para + i)) /\
    (forall x, ~ (dst para <= x < dst para + count para) -> gmem s' x = gmem s x).
Proof.
  intros Hcount Hperm Hapart Hfuel.
  destruct (kernel_ok fmul uninit fuel para ids Hcount Hperm Hfuel s)
    as (s' & Hrun & Hframe & _).
  exists s'. split; [exact Hrun|]. split; [|exact Hframe].
  intros i Hi. apply Hframe. lia.
Qed.

(** X10. Two in-place runs compose: scaling a vector in place by a and
    then, from the state the first run left, by b leaves every x[i] equal
    to (x[i] * a) * b. *)
Theorem scal_in_place_twice (fuel : nat) (p : Z) (a b : elem) (N : Z)
        (ids1 ids2 : list Z) (s : @state elem) :
  0 <= N <= INT_MAX ->
  ids1 ≡ₚ seqZ 0 SPNUM -> ids2 ≡ₚ seqZ 0 SPNUM ->
  BUFFSIZE + N < Z.of_nat fuel ->
  exists s1 s2,
    run_workers (sw_slave_sscal_f fmul uninit fuel) (mk_para p p a N) ids1 s
    = Ok (tt, s1) /\
    run_workers (sw_slave_sscal_f fmul uninit fuel) (mk_para p p b N) ids2 s1
    = Ok (tt, s2) /\
    forall i, 0 <= i < N -> gmem s2 (p + i) = fmul (fmul (gmem s (p + i)) a) b.
Proof.
  intros HN Hp1 Hp2 Hfuel.
  destruct (kernel_ok fmul uninit fuel (mk_para p p a N) ids1 HN Hp1 Hfuel s)
    as (s1 & Hrun1 & _ & Hfun1).
  destruct (kernel_ok fmul uninit fuel (mk_para p p b N) ids2 HN Hp2 Hfuel s1)
    as (s2 & Hrun2 & _ & Hfun2).
  exists s1, s2. split; [exact Hrun1|]. split; [exact Hrun2|].
  intros i Hi.
  pose proof (Hfun2 (no_cross_alias_same p N) i Hi) as H2.
  pose proof (Hfun1 (no_cross_alias_same p N) i Hi) as H1.
  cbn [src dst alpha count] in *. rewrite H2, H1. reflexivity.
Qed.


(** X11. Workers do not interfere: for any set of distinct workers, and
    source and destination apart or identical, running them in one order
    or in another leaves the same global memory. *)
Theorem workers_order_irrelevant (fuel : nat) (para : @sscalPara elem)
        (ids1 ids2 : list Z) (s : @state elem) :
  0 <= count para <= INT_MAX ->
  Forall (fun id => 0 <= id < SPNUM) ids1 -> NoDup ids1 -> ids1 ≡ₚ ids2 ->
  no_cross_alias (src para) (dst para) (count para) ->
  BUFFSIZE + count para < Z.of_nat fuel ->
  exists s1 s2,
    run_workers (sw_slave_sscal_f fmul uninit fuel) para ids1 s = Ok (tt, s1) /\
    run_workers (sw_slave_sscal_f fmul uninit fuel) para ids2 s = Ok (tt, s2) /\
    forall x, gmem s1 x = gmem s2 x.
Proof.
  intros Hcount Hids1 Hnd1 Hperm Halias Hfuel.
  assert (Hids2 : Forall (fun id => 0 <= id < SPNUM) ids2) by (rewrite <- Hperm; exact Hids1).
  assert (Hnd2 : NoDup ids2) by (rewrite <- Hperm; exact Hnd1).
  destruct (run_workers_ok fmul uninit fuel para ids1 Hcount Hids1 Hnd1 Hfuel s)
    as (s1 & Hrun1 & _ & Hframe1 & Hfun1).
  destruct (run_workers_ok fmul uninit fuel para ids2 Hcount Hids2 Hnd2 Hfuel s)
    as (s2 & Hrun2 & _ & Hframe2 & Hfun2).
  exists s1, s2. split; [exact Hrun1|]. split; [exact Hrun2|].
  intros x.
  assert (Hdec : forall id, Decision (in_range id (count para) (x - dst para)))
    by (intros id; unfold in_range; apply _).
  destruct (Exists_dec (fun id => in_range id (count para) (x - dst para)) ids1)
    as [Hex|Hnone].
  - apply Exists_exists in Hex as (id & Hin & Hr).
    replace x with (dst para + (x - dst para)) by lia.
    rewrite (Hfun1 Halias id _ Hin Hr).
    rewrite (Hfun2 Halias id _ ltac:(rewrite <- Hperm; exact Hin) Hr). reflexivity.
  - rewrite Hframe1, Hframe2; [reflexivity| |].
    + intros id Hin Hr. apply Hnone. apply Exists_exists. exists id.
      rewrite Hperm. auto.
    + intros id Hin Hr. apply Hnone. apply Exists_exists. exists id. auto.
Qed.

(** X12. In the tail of a partition the vector loop (line 146) handles the
    4*floor(n/4) leading elements of a remainder of n elements and the
    scalar loop (line 151) the n mod 4 < 4 that are left; together they
    store local_src[j] * alpha into local_dst[j] for every j < n, and leave
    local_src and the slots of local_dst from n on as they were. *)
Theorem tail_loops_split (a : elem) (fuel n : nat) (s0 : @state elem) :
  (n <= length (local_src s0))%nat -> (n <= length (local_dst s0))%nat ->
  Z.of_nat n <= BUFFSIZE -> (n < fuel)%nat ->
  exists s1 s2,
    for_loop fuel (fun i => isub (iadd i SIMDSIZE) 1 <? Z.of_nat n)
             (fun i => iadd i SIMDSIZE) (simd_body fmul (simd_splat a)) 0 s0
    = Ok (4 * (Z.of_nat n / 4), s1) /\
    for_loop fuel (fun i => i <? Z.of_nat n) (fun i => iadd i 1) (scalar_body fmul a)
             (4 * (Z.of_nat n / 4)) s1
    = Ok (Z.of_nat n, s2) /\
    0 <= Z.of_nat n - 4 * (Z.of_nat n / 4) < 4 /\
    local_src s2 = local_src s0 /\
    length (local_dst s2) = length (local_dst s0) /\
    (forall (j : nat) x, (j < n)%nat -> local_src s0 !! j = Some x ->
                         local_dst s2 !! j = Some (fmul x a)) /\
    (forall j : nat, (n <= j)%nat -> local_dst s2 !! j = local_dst s0 !! j).
Proof.
  intros HL HD HnB Hfuel.
  pose proof BUFFSIZE_eq as HB.
  pose proof (Nat.div_mod_eq n 4) as Hdiv.
  pose proof (Nat.mod_upper_bound n 4 ltac:(lia)) as Hrem.
  assert (Hm : 4 * (Z.of_nat n / 4) = Z.of_nat (4 * (n / 4))).
  { rewrite Nat2Z.inj_mul, Nat2Z.inj_div. reflexivity. }
  rewrite Hm.
  exists (set_buf Local_dst (scaled fmul a (local_src s0) (local_dst s0) (4 * (n / 4))) s0),
         (set_buf Local_dst (scaled fmul a (local_src s0) (local_dst s0) n) s0).
  split; [|split; [|split; [|split; [|split; [|split]]]]].
  - apply (simd_loop_ok fmul a _ s0 (4 * (n / 4))); try lia.
    + rewrite Nat.mul_comm. apply Nat.Div0.mod_mul.
    + rewrite INT_MAX_eq. lia.
    + intros k Hk4 Hkm.
      pose proof (Nat.div_mod_eq k 4) as Hkdiv.
      assert (Hi : isub (iadd (Z.of_nat k) SIMDSIZE) 1 = Z.of_nat k + 3).
      { unfold isub, iadd, SIMDSIZE.
        rewrite (wrap_small (Z.of_nat k + 4)) by (rewrite INT_MIN_eq, INT_MAX_eq; lia).
        rewrite wrap_small by (rewrite INT_MIN_eq, INT_MAX_eq; lia). lia. }
      rewrite Hi.
      destruct (Z.ltb_spec (Z.of_nat k + 3) (Z.of_nat n));
        destruct (Z.ltb_spec (Z.of_nat k) (Z.of_nat (4 * (n / 4)))); try reflexivity; lia.
  - apply (scalar_loop_ok fmul a s0 (4 * (n / 4)) n); try lia.
    rewrite INT_MAX_eq. lia.
  - lia.
  - destruct s0; reflexivity.
  - change (local_dst (set_buf Local_dst ?l s0)) with (buf Local_dst (set_buf Local_dst l s0)).
    rewrite buf_set_buf. apply scaled_length; assumption.
  - intros j x Hj Hx.
    change (local_dst (set_buf Local_dst ?l s0)) with (buf Local_dst (set_buf Local_dst l s0)).
    rewrite buf_set_buf. apply scaled_lookup; assumption.
  - intros j Hj.
    change (local_dst (set_buf Local_dst ?l s0)) with (buf Local_dst (set_buf Local_dst l s0)).
    rewrite buf_set_buf. unfold scaled.
    rewrite lookup_app_r by (rewrite length_map, length_take; lia).
    rewrite length_map, length_take, lookup_drop. f_equal. lia.
Qed.





End ExtraKernel.


(** ** The further properties exercised on concrete machines *)

Lemma fuel_worker3 :
  BUFFSIZE + local_count_of 3 (count scenario_para) < Z.of_nat 5000.
Proof. apply fuel_5000. change (local_count_of 3 (count scenario_para)) with 1. lia. Defined.

Lemma worker_transfers_once_witness :
  0 <= count scenario_para <= INT_MAX /\ 0 <= 3 < SPNUM /\
  BUFFSIZE + local_count_of 3 (count scenario_para) < Z.of_nat 5000 /\
  exists s' evs,
    sw_slave_sscal_f f32_mul zero_ldm32 5000 scenario_para 3 ramp_state32 = Ok (tt, s') /\
    trace s' = trace ramp_state32 ++ evs /\
    get_addrs evs = seqZ (src scenario_para + start_of 3 (count scenario_para))
                         (local_count_of 3 (count scenario_para)) /\
    put_addrs evs = seqZ (dst scenario_para + start_of 3 (count scenario_para))
                         (local_count_of 3 (count scenario_para)).
Proof.
  assert (H1 : 0 <= count scenario_para <= INT_MAX) by (apply count_ok; simpl; lia).
  assert (H2 : 0 <= 3 < SPNUM) by (unfold SPNUM; lia).
  assert (H3 := fuel_worker3).
  do 3 (split; [assumption|]).
  exact (worker_transfers_once f32_mul zero_ldm32 5000 scenario_para 3 ramp_state32
                               H1 H2 H3).
Defined.

Lemma worker_transfer_count_witness :
  0 <= count scenario_para <= INT_MAX /\ 0 <= 3 < SPNUM /\
  BUFFSIZE + local_count_of 3 (count scenario_para) < Z.of_nat 5000 /\
  exists s' evs,
    sw_slave_sscal_f f32_mul zero_ldm32 5000 scenario_para 3 ramp_state32 = Ok (tt, s') /\
    trace s' = trace ramp_state32 ++ evs /\
    count_events is_get evs
    = (local_count_of 3 (count scenario_para) + BUFFSIZE - 1) / BUFFSIZE /\
    count_events is_put evs
    = (local_count_of 3 (count scenario_para) + BUFFSIZE - 1) / BUFFSIZE /\
    Forall transfer_size_ok evs.
Proof.
  assert (H1 : 0 <= count scenario_para <= INT_MAX) by (apply count_ok; simpl; lia).
  assert (H2 : 0 <= 3 < SPNUM) by (unfold SPNUM; lia).
  assert (H3 := fuel_worker3).
  do 3 (split; [assumption|]).
  exact (worker_transfer_count f32_mul zero_ldm32 5000 scenario_para 3 ramp_state32
                               H1 H2 H3).
Defined.

Lemma kernel_transfers_once_witness :
  0 <= count scenario_para <= INT_MAX /\
  seqZ 0 SPNUM ≡ₚ seqZ 0 SPNUM /\
  BUFFSIZE + count scenario_para < Z.of_nat 5000 /\
  exists s' evs,
    run_workers (sw_slave_sscal_f f32_mul zero_ldm32 5000) scenario_para
                (seqZ 0 SPNUM) ramp_state32 = Ok (tt, s') /\
    trace s' = trace ramp_state32 ++ evs /\
    get_addrs evs ≡ₚ seqZ (src scenario_para) (count scenario_para) /\
    put_addrs evs ≡ₚ seqZ (dst scenario_para) (count scenario_para).
Proof.
  assert (H1 : 0 <= count scenario_para <= INT_MAX) by (apply count_ok; simpl; lia).
  assert (H2 : seqZ 0 SPNUM ≡ₚ seqZ 0 SPNUM) by reflexivity.
  assert (H3 : BUFFSIZE + count scenario_para < Z.of_nat 5000)
    by (apply fuel_5000; simpl; lia).
  do 3 (split; [assumption|]).
  exact (kernel_transfers_once f32_mul zero_ldm32 5000 scenario_para (seqZ 0 SPNUM)
                               ramp_state32 H1 H2 H3).
Defined.

Lemma worker_releases_witness :
  0 <= count scenario_para <= INT_MAX /\ 0 <= 3 < SPNUM /\
  BUFFSIZE + local_count_of 3 (count scenario_para) < Z.of_nat 5000 /\
  exists s',
    sw_slave_sscal_f f32_mul zero_ldm32 5000 scenario_para 3 ramp_state32 = Ok (tt, s') /\
    local_src s' = [] /\ local_dst s' = [] /\
    replyget s' = 0 /\ replyput s' = 0 /\
    dma_get_sscal_src s' = mk_desc DMA_GET PE_MODE Replyget 4 /\
    dma_put_sscal_dst s' = mk_desc DMA_PUT PE_MODE Replyput 4.
Proof.
  assert (H1 : 0 <= count scenario_para <= INT_MAX) by (apply count_ok; simpl; lia).
  assert (H2 : 0 <= 3 < SPNUM) by (unfold SPNUM; lia).
  assert (H3 := fuel_worker3).
  do 3 (split; [assumption|]).
  destruct (worker_releases f32_mul zero_ldm32 5000 scenario_para 3 ramp_state32
                            H1 H2 H3)
    as (s' & mid & Hrun & _ & _ & Hls & Hld & Hrg & Hrp & Hdg & Hdp & _).
  exists s'. repeat split; assumption.
Defined.

Lemma negative_count_idle_witness :
  INT_MIN <= count negative_para < 0 /\ 0 <= 3 < SPNUM /\ (0 < 1)%nat /\
  local_count_of 3 (count negative_para) <= 0 /\
  exists s',
    sw_slave_sscal_f f32_mul zero_ldm32 1 negative_para 3 ramp_state32 = Ok (tt, s') /\
    trace s' = trace ramp_state32 ++ [EvMalloc (BUFFSIZE * sizeof_float);
                                      EvMalloc (BUFFSIZE * sizeof_float);
                                      EvFree (BUFFSIZE * sizeof_float);
                                      EvFree (BUFFSIZE * sizeof_float)] /\
    forall x, gmem s' x = gmem ramp_state32 x.
Proof.
  assert (H1 : INT_MIN <= count negative_para < 0) by (rewrite INT_MIN_eq; simpl; lia).
  assert (H2 : 0 <= 3 < SPNUM) by (unfold SPNUM; lia).
  assert (H3 : (0 < 1)%nat) by lia.
  do 3 (split; [assumption|]).
  exact (negative_count_idle f32_mul zero_ldm32 1 negative_para 3 ramp_state32 H1 H2 H3).
Defined.

Lemma scal_in_place_witness :
  0 <= 10 <= INT_MAX /\ seqZ 0 SPNUM ≡ₚ seqZ 0 SPNUM /\
  BUFFSIZE + 10 < Z.of_nat 5000 /\
  exists s',
    run_workers (sw_slave_sscal_f f32_mul zero_ldm32 5000)
                (mk_para 1 1 (f32_of_Z 2) 10) (seqZ 0 SPNUM) ramp_state32 = Ok (tt, s') /\
    (forall i, 0 <= i < 10 ->
               gmem s' (1 + i) = f32_mul (gmem ramp_state32 (1 + i)) (f32_of_Z 2)) /\
    (forall x, ~ (1 <= x < 1 + 10) -> gmem s' x = gmem ramp_state32 x).
Proof.
  assert (H1 : 0 <= 10 <= INT_MAX) by (apply count_ok; lia).
  assert (H2 : seqZ 0 SPNUM ≡ₚ seqZ 0 SPNUM) by reflexivity.
  assert (H3 : BUFFSIZE + 10 < Z.of_nat 5000) by (apply fuel_5000; lia).
  do 3 (split; [assumption|]).
  exact (scal_in_place f32_mul zero_ldm32 5000 1 (f32_of_Z 2) 10 (seqZ 0 SPNUM)
                       ramp_state32 H1 H2 H3).
Defined.

Lemma source_preserved_witness :
  0 <= count scenario_para <= INT_MAX /\
  seqZ 0 SPNUM ≡ₚ seqZ 0 SPNUM /\
  count scenario_para <= Z.abs (src scenario_para - dst scenario_para) /\
  BUFFSIZE + count scenario_para < Z.of_nat 5000 /\
  exists s',
    run_workers (sw_slave_sscal_f f32_mul zero_ldm32 5000) scenario_para
                (seqZ 0 SPNUM) ramp_state32 = Ok (tt, s') /\
    (forall i, 0 <= i < count scenario_para ->
               gmem s' (src scenario_para + i) = gmem ramp_state32 (src scenario_para + i)) /\
    (forall x, ~ (dst scenario_para <= x < dst scenario_para + count scenario_para) ->
               gmem s' x = gmem ramp_state32 x).
Proof.
  assert (H1 : 0 <= count scenario_para <= INT_MAX) by (apply count_ok; simpl; lia).
  assert (H2 : seqZ 0 SPNUM ≡ₚ seqZ 0 SPNUM) by reflexivity.
  assert (H3 : count scenario_para <= Z.abs (src scenario_para - dst scenario_para))
    by (simpl; lia).
  assert (H4 : BUFFSIZE + count scenario_para < Z.of_nat 5000)
    by (apply fuel_5000; simpl; lia).
  do 4 (split; [assumption|]).
  exact (source_preserved f32_mul zero_ldm32 5000 scenario_para (seqZ 0 SPNUM)
                          ramp_state32 H1 H2 H3 H4).
Defined.

Lemma scal_in_place_twice_witness :
  0 <= 10 <= INT_MAX /\ seqZ 0 SPNUM ≡ₚ seqZ 0 SPNUM /\
  BUFFSIZE + 10 < Z.of_nat 5000 /\
  exists s1 s2,
    run_workers (sw_slave_sscal_f f32_mul zero_ldm32 5000)
                (mk_para 1 1 (f32_of_Z 2) 10) (seqZ 0 SPNUM) ramp_state32 = Ok (tt, s1) /\
    run_workers (sw_slave_sscal_f f32_mul zero_ldm32 5000)
                (mk_para 1 1 (f32_of_Z 3) 10) (seqZ 0 SPNUM) s1 = Ok (tt, s2) /\
    forall i, 0 <= i < 10 ->
              gmem s2 (1 + i)
              = f32_mul (f32_mul (gmem ramp_state32 (1 + i)) (f32_of_Z 2)) (f32_of_Z 3).
Proof.
  assert (H1 : 0 <= 10 <= INT_MAX) by (apply count_ok; lia).
  assert (H2 : seqZ 0 SPNUM ≡ₚ seqZ 0 SPNUM) by reflexivity.
  assert (H3 : BUFFSIZE + 10 < Z.of_nat 5000) by (apply fuel_5000; lia).
  do 3 (split; [assumption|]).
  exact (scal_in_place_twice f32_mul zero_ldm32 5000 1 (f32_of_Z 2) (f32_of_Z 3) 10
                             (seqZ 0 SPNUM) (seqZ 0 SPNUM) ramp_state32 H1 H2 H2 H3).
Defined.

Lemma workers_order_irrelevant_witness :
  0 <= count scenario_para <= INT_MAX /\
  Forall (fun id => 0 <= id < SPNUM) (seqZ 0 3) /\ NoDup (seqZ 0 3) /\
  seqZ 0 3 ≡ₚ reverse (seqZ 0 3) /\
  no_cross_alias (src scenario_para) (dst scenario_para) (count scenario_para) /\
  BUFFSIZE + count scenario_para < Z.of_nat 5000 /\
  exists s1 s2,
    run_workers (sw_slave_sscal_f f32_mul zero_ldm32 5000) scenario_para
                (seqZ 0 3) ramp_state32 = Ok (tt, s1) /\
    run_workers (sw_slave_sscal_f f32_mul zero_ldm32 5000) scenario_para
                (reverse (seqZ 0 3)) ramp_state32 = Ok (tt, s2) /\
    forall x, gmem s1 x = gmem s2 x.
Proof.
  assert (H1 : 0 <= count scenario_para <= INT_MAX) by (apply count_ok; simpl; lia).
  assert (H2 : Forall (fun id => 0 <= id < SPNUM) (seqZ 0 3)).
  { apply Forall_seqZ. intros id Hid. unfold SPNUM. lia. }
  assert (H3 : NoDup (seqZ 0 3)) by apply NoDup_seqZ.
  assert (H4 : seqZ 0 3 ≡ₚ reverse (seqZ 0 3)) by (symmetry; apply reverse_Permutation).
  assert (H5 : no_cross_alias (src scenario_para) (dst scenario_para)
                              (count scenario_para))
    by (apply no_cross_alias_apart; simpl; lia).
  assert (H6 : BUFFSIZE + count scenario_para < Z.of_nat 5000)
    by (apply fuel_5000; simpl; lia).
  do 6 (split; [assumption|]).
  exact (workers_order_irrelevant f32_mul zero_ldm32 5000 scenario_para (seqZ 0 3)
                                  (reverse (seqZ 0 3)) ramp_state32 H1 H2 H3 H4 H5 H6).
Defined.

Lemma tail_loops_split_witness :
  (7 <= length (local_src tail_state32))%nat /\
  (7 <= length (local_dst tail_state32))%nat /\
  Z.of_nat 7 <= BUFFSIZE /\ (7 < 20)%nat /\
  exists s1 s2,
    for_loop 20 (fun i => isub (iadd i SIMDSIZE) 1 <? Z.of_nat 7)
             (fun i => iadd i SIMDSIZE) (simd_body f32_mul (simd_splat (f32_of_Z 2)))
             0 tail_state32
    = Ok (4 * (Z.of_nat 7 / 4), s1) /\
    for_loop 20 (fun i => i <? Z.of_nat 7) (fun i => iadd i 1)
             (scalar_body f32_mul (f32_of_Z 2)) (4 * (Z.of_nat 7 / 4)) s1
    = Ok (Z.of_nat 7, s2) /\
    local_src s2 = local_src tail_state32.
Proof.
  assert (H1 : (7 <= length (local_src tail_state32))%nat) by (simpl; lia).
  assert (H2 : (7 <= length (local_dst tail_state32))%nat) by (simpl; lia).
  assert (H3 : Z.of_nat 7 <= BUFFSIZE) by (rewrite BUFFSIZE_eq; lia).
  assert (H4 : (7 < 20)%nat) by lia.
  do 4 (split; [assumption|]).
  destruct (tail_loops_split f32_mul (f32_of_Z 2) 20 7 tail_state32 H1 H2 H3 H4)
    as (s1 & s2 & R1 & R2 & _ & Hsrc & _).
  exists s1, s2. repeat split; assumption.
Defined.


